(** * The client epoch queue of dcrdex (client/order/epochqueue.go)

    A shallow embedding of [EpochQueue] and of its five operations, and the
    properties of the match proof (seed and commitment checksum) that
    [GenerateMatchProof] derives from the revealed preimages.

    Go's [map] is a stdpp [gmap]; since the order in which a [range] loop
    visits a Go map is unspecified, every such loop takes its visiting order
    from an explicit [MapRange].  The digest [blake256.Sum256] comes from a
    library outside the repository and is a parameter of the development. *)

From Stdlib Require Import ZArith NArith Lia.
From Stdlib Require Import Strings.Byte.
From stdpp Require Import base decidable countable list sorting gmap fin_map_dom strings.

(** ** Bytes and 32-byte arrays *)

Global Instance byte_eq_dec : EqDecision byte := Byte.byte_eq_dec.

Global Instance byte_countable : Countable byte :=
  inj_countable Byte.to_N Byte.of_N Byte.of_to_N.

(** A Go [[32]byte]: the type of [blake256.Sum256]'s result and, in the
    test file, of every order ID, commitment and preimage literal. *)
Definition HashSize : nat := 32.

Definition Array32 : Type := { l : list byte | length l = HashSize }.

(** Package [dex/order]: the three array types the queue works with. *)
Module order.
Abbreviation OrderID := Array32.
Abbreviation Commitment := Array32.
Abbreviation Preimage := Array32.
Definition PreimageSize : nat := HashSize.
Definition CommitmentSize : nat := HashSize.
End order.

(** The zero value of a [[32]byte]. *)
Definition zero32 : Array32 := replicate HashSize x00 ↾ eq_refl.

(** Go's builtin [copy(dst, src)] on byte slices: the first
    [min (len dst) (len src)] elements of [dst] are overwritten. *)
Definition copy (dst src : list byte) : list byte :=
  take (length dst) src ++ drop (length src) dst.

Lemma length_copy dst src : length (copy dst src) = length dst.
Proof. unfold copy. rewrite length_app, length_take, length_drop. lia. Qed.

(** [var a [32]byte; copy(a[:], src)] *)
Definition array_of_slice (src : list byte) : Array32 :=
  copy (`zero32) src ↾ eq_trans (length_copy _ _) (proj2_sig zero32).

(** ** bytes.Compare *)

Module bytes.

(** Lexicographic comparison of two byte slices: -1, 0 or +1. *)
Fixpoint Compare (a b : list byte) : Z :=
  match a, b with
  | [], [] => 0
  | [], _ :: _ => -1
  | _ :: _, [] => 1
  | x :: a', y :: b' =>
      match (Byte.to_N x ?= Byte.to_N y)%N with
      | Lt => -1
      | Gt => 1
      | Eq => Compare a' b'
      end
  end%Z.

End bytes.

(** ** sort.Slice *)

Module sort.
Section Slice.
Context {A : Type} (less : A → A → bool).

Fixpoint insert_sorted (x : A) (l : list A) : list A :=
  match l with
  | [] => [x]
  | y :: l' => if less x y then x :: l else y :: insert_sorted x l'
  end.

(** [sort.Slice(s, less)] sorts [s] in place by [less].  The library
    routine is not stable; on the keys sorted here (a strict total order
    on arrays) a sorted arrangement is unique, see [sort_Slice_unique], so an
    insertion sort stands for it. *)
Definition Slice (s : list A) : list A := foldr insert_sorted [] s.
End Slice.
End sort.

(** [x] may stand before [y] in a slice sorted by [less]. *)
Definition sorted_by {A : Type} (less : A → A → bool) (x y : A) : Prop :=
  less y x = false.

(** The [less] closures handed to [sort.Slice]:
    [bytes.Compare(x[i][:], x[j][:]) < 0]. *)
Definition array_less (a b : Array32) : bool := (bytes.Compare (`a) (`b) <? 0)%Z.

(** ** The epoch order note (package [dex/msgjson])

    The fields [makeEpochOrderNote] fills in; Go promotes the embedded
    [TradeNote] and [OrderNote] fields, so the record is flat.  [OrderID]
    and [Commitment] are byte slices of any length. *)
Module msgjson.
Record EpochOrderNote : Type := {
  Side : N;
  Rate : N;
  Quantity : N;
  MarketID : string;
  OrderID : list byte;
  Commitment : list byte
}.
End msgjson.

(** ** The queue and its accessors *)

(** [ordersMtx] guards every method for the whole of its body, so a method
    is a function from the queue before the call to the queue after it. *)
Record EpochQueue : Type := { orders : gmap order.OrderID order.Commitment }.

Definition NewEpochQueue : EpochQueue := {| orders := ∅ |}.

Definition Reset (q : EpochQueue) : EpochQueue := {| orders := ∅ |}.

Definition Enqueue (q : EpochQueue) (note : msgjson.EpochOrderNote) : EpochQueue :=
  let oid := array_of_slice (msgjson.OrderID note) in
  let commit := array_of_slice (msgjson.Commitment note) in
  {| orders := <[oid := commit]> (orders q) |}.

Definition Size (q : EpochQueue) : nat := size (orders q).

Definition Exists (q : EpochQueue) (oid : order.OrderID) : bool :=
  bool_decide (is_Some (orders q !! oid)).

(** ** Ranging over a Go map

    A [range] over a map visits every entry once, in an order the language
    leaves open and that may change from one loop to the next.  A
    [MapRange] fixes, for the [n]-th such loop of a call, the order in which
    the entries of a map are visited. *)
Record MapRange : Type := {
  range_of : nat → gmap order.OrderID order.Commitment →
             list (order.OrderID * order.Commitment);
  range_of_perm : ∀ n m, range_of n m ≡ₚ map_to_list m
}.

(** Two visiting orders: the map's own listing, and that listing reversed
    on every odd-numbered loop. *)
Definition range_canonical : MapRange :=
  {| range_of := λ _ m, map_to_list m;
     range_of_perm := λ _ m, reflexivity (map_to_list m) |}.

Definition range_alternating : MapRange :=
  {| range_of := λ n m, if Nat.odd n then reverse (map_to_list m) else map_to_list m;
     range_of_perm := λ n m,
       match Nat.odd n as b
         return (if b then reverse (map_to_list m) else map_to_list m) ≡ₚ map_to_list m
       with
       | true => reverse_Permutation (map_to_list m)
       | false => reflexivity (map_to_list m)
       end |}.

(** ** GenerateMatchProof *)

(** The error of the completeness check, with the two counts it prints:
    [expected all remaining epoch orders (%v) matched to a preimage (%v)]. *)
Inductive error : Type :=
  | errUnmatched (matched remaining : nat).

(** The three results [(seed, csum, err)]; [None] is Go's [nil]. *)
Definition MatchProof : Type := option (list byte) * option (list byte) * option error.

Definition proof_seed (r : MatchProof) : option (list byte) := r.1.1.
Definition proof_csum (r : MatchProof) : option (list byte) := r.1.2.
Definition proof_err (r : MatchProof) : option error := r.2.

Section GenerateMatchProof.
(** [blake256.Sum256] *)
Variable Sum256 : list byte → Array32.

(** [for i := range misses { delete(eq.orders, misses[i]) }] *)
Definition remove_misses (misses : list order.OrderID)
    (m : gmap order.OrderID order.Commitment) : gmap order.OrderID order.Commitment :=
  foldl (λ m oid, delete oid m) m misses.

(** The inner loop for one preimage: the first visited order whose
    commitment is the preimage's digest gets the preimage, and the loop
    breaks. *)
Fixpoint match_preimage (visit : list (order.OrderID * order.Commitment))
    (pimg : order.Preimage) (orderPreimages : gmap order.OrderID order.Preimage)
    : gmap order.OrderID order.Preimage :=
  match visit with
  | [] => orderPreimages
  | (oid, commit) :: rest =>
      let commitment := Sum256 (`pimg) in
      if decide (commit = commitment) then <[oid := pimg]> orderPreimages
      else match_preimage rest pimg orderPreimages
  end.

(** The outer loop; [i] counts the map loops run so far. *)
Fixpoint match_preimages (it : MapRange) (i : nat)
    (m : gmap order.OrderID order.Commitment) (preimages : list order.Preimage)
    (orderPreimages : gmap order.OrderID order.Preimage)
    : gmap order.OrderID order.Preimage :=
  match preimages with
  | [] => orderPreimages
  | pimg :: rest =>
      match_preimages it (S i) m rest
        (match_preimage (range_of it i m) pimg orderPreimages)
  end.

(** [sbuff]: the preimage of each order ID in turn; a missing key reads
    as the zero array. *)
Definition seed_buffer (orderPreimages : gmap order.OrderID order.Preimage)
    (oids : list order.OrderID) : list byte :=
  foldl (λ sbuff oid, sbuff ++ proj1_sig (default zero32 (orderPreimages !! oid))) [] oids.

(** [cbuff] *)
Definition csum_buffer (commits : list order.Commitment) : list byte :=
  foldl (λ cbuff commit, cbuff ++ `commit) [] commits.

(** The success path: the order IDs and the commitments are extracted in
    one loop over the map, sorted apart, and the two buffers hashed. *)
Definition derive_proof (visit : list (order.OrderID * order.Commitment))
    (orderPreimages : gmap order.OrderID order.Preimage) : MatchProof :=
  let oids := sort.Slice array_less visit.*1 in
  let commits := sort.Slice array_less visit.*2 in
  let seed := Sum256 (seed_buffer orderPreimages oids) in
  let csum := Sum256 (csum_buffer commits) in
  (Some (`seed), Some (`csum), None).

Definition GenerateMatchProof (it : MapRange) (q : EpochQueue)
    (preimages : list order.Preimage) (misses : list order.OrderID)
    : EpochQueue * MatchProof :=
  let m := remove_misses misses (orders q) in
  let q' := {| orders := m |} in
  let orderPreimages := match_preimages it 0 m preimages ∅ in
  if decide (size orderPreimages ≠ size m) then
    (q', (None, None, Some (errUnmatched (size orderPreimages) (size m))))
  else
    (q', derive_proof (range_of it (length preimages) m) orderPreimages).

(** The test file's [makeCommitment] and [makeMatchProof]. *)
Definition makeCommitment (pimg : order.Preimage) : order.Commitment :=
  Sum256 (`pimg).

Fixpoint makeMatchProof_buffers (preimages : list order.Preimage)
    (commitments : list order.Commitment) (sbuff cbuff : list byte)
    : list byte * list byte :=
  match preimages, commitments with
  | pimg :: preimages', commit :: commitments' =>
      makeMatchProof_buffers preimages' commitments' (sbuff ++ `pimg) (cbuff ++ `commit)
  | _, _ => (sbuff, cbuff)
  end.

Definition makeMatchProof (preimages : list order.Preimage)
    (commitments : list order.Commitment) : option (list byte * list byte) :=
  if decide (length preimages ≠ length commitments) then None
  else
    let '(sbuff, cbuff) := makeMatchProof_buffers preimages commitments [] [] in
    Some (proj1_sig (Sum256 sbuff), proj1_sig (Sum256 cbuff)).
End GenerateMatchProof.

(** [makeEpochOrderNote] of the test file. *)
Definition makeEpochOrderNote (mid : string) (side : N) (oid : order.OrderID)
    (rate qty : N) (commitment : order.Commitment) : msgjson.EpochOrderNote :=
  {| msgjson.Side := side; msgjson.Rate := rate; msgjson.Quantity := qty;
     msgjson.MarketID := mid; msgjson.OrderID := `oid;
     msgjson.Commitment := `commitment |}.

(** ** Notions the properties are stated with *)

(** The array a note's order ID is copied into, and likewise its commitment. *)
Definition note_oid (note : msgjson.EpochOrderNote) : order.OrderID :=
  array_of_slice (msgjson.OrderID note).

Definition note_commit (note : msgjson.EpochOrderNote) : order.Commitment :=
  array_of_slice (msgjson.Commitment note).

(** Enqueueing a list of notes, first to last. *)
Definition enqueue_all (q : EpochQueue) (notes : list msgjson.EpochOrderNote) : EpochQueue :=
  foldl Enqueue q notes.

(** No two orders of the map carry the same commitment. *)
Definition distinct_commitments (m : gmap order.OrderID order.Commitment) : Prop :=
  NoDup (map_to_list m).*2.

(** The orders of a map that are not listed as misses. *)
Definition without_misses (misses : list order.OrderID)
    (m : gmap order.OrderID order.Commitment) : gmap order.OrderID order.Commitment :=
  filter (λ kv, kv.1 ∉ misses) m.

(** [with_surplus surplus pre pre']: the list [pre'] is [pre] with further
    preimages, all satisfying [surplus], added at any positions. *)
Inductive with_surplus (surplus : order.Preimage → Prop)
    : list order.Preimage → list order.Preimage → Prop :=
  | with_surplus_nil : with_surplus surplus [] []
  | with_surplus_keep p pre pre' :
      with_surplus surplus pre pre' → with_surplus surplus (p :: pre) (p :: pre')
  | with_surplus_add x pre pre' :
      surplus x → with_surplus surplus pre pre' → with_surplus surplus pre (x :: pre').

(** Order/preimage pairs sorted by ascending order ID. *)
Definition sort_by_oid (os : list (order.OrderID * order.Preimage))
    : list (order.OrderID * order.Preimage) :=
  sort.Slice (λ a b, array_less a.1 b.1) os.

Section notions.
Variable Sum256 : list byte → Array32.

(** The supplied preimage an order committed to [c] ends up with when
    commitments are distinct: the last one whose digest is [c]. *)
Fixpoint revealed_for (preimages : list order.Preimage) (c : order.Commitment)
    : option order.Preimage :=
  match preimages with
  | [] => None
  | pimg :: rest =>
      match revealed_for rest c with
      | Some q => Some q
      | None => if decide (Sum256 (`pimg) = c) then Some pimg else None
      end
  end.

(** The map of a queue holding the orders [os], each committed to the
    digest of the preimage listed with it. *)
Definition committed (os : list (order.OrderID * order.Preimage))
    : gmap order.OrderID order.Commitment :=
  list_to_map (prod_map id (makeCommitment Sum256) <$> os).
End notions.

(** ** Sample data

    A stand-in digest (a polynomial checksum, 32 bytes little-endian) and
    the three orders of [TestEpochQueue], on which the model is run. *)

Definition sample_checksum (l : list byte) : N :=
  foldl (λ acc b, (acc * 257 + Byte.to_N b + 1) mod 2 ^ 256)%N 0%N l.

Fixpoint N_to_bytes (n : nat) (v : N) : list byte :=
  match n with
  | O => []
  | S n' => default x00 (Byte.of_N (v mod 256)%N) :: N_to_bytes n' (v / 256)%N
  end.

Definition sample_Sum256 (l : list byte) : Array32 :=
  array_of_slice (N_to_bytes HashSize (sample_checksum l)).

(** [[32]byte{b}] *)
Definition array_lit (b : byte) : Array32 := array_of_slice [b].

Definition n1Pimg : order.Preimage := array_lit "1".
Definition n2Pimg : order.Preimage := array_lit "2".
Definition n3Pimg : order.Preimage := array_lit "3".
Definition n1OrderID : order.OrderID := array_lit "a".
Definition n2OrderID : order.OrderID := array_lit "b".
Definition n3OrderID : order.OrderID := array_lit "c".

Definition n1 : msgjson.EpochOrderNote :=
  makeEpochOrderNote "mkt" 1 n1OrderID 1 3 (makeCommitment sample_Sum256 n1Pimg).
Definition n2 : msgjson.EpochOrderNote :=
  makeEpochOrderNote "mkt" 1 n2OrderID 2 4 (makeCommitment sample_Sum256 n2Pimg).
Definition n3 : msgjson.EpochOrderNote :=
  makeEpochOrderNote "mkt" 1 n3OrderID 3 6 (makeCommitment sample_Sum256 n3Pimg).

(** The queue of the test after its three [Enqueue] calls, and the orders
    it holds with their preimages. *)
Definition sample_queue : EpochQueue := enqueue_all NewEpochQueue [n1; n2; n3].

Definition sample_orders : list (order.OrderID * order.Preimage) :=
  [(n1OrderID, n1Pimg); (n2OrderID, n2Pimg); (n3OrderID, n3Pimg)].

(** Two orders committed to one and the same preimage. *)
Definition twin_orders : list (order.OrderID * order.Preimage) :=
  [(n1OrderID, n1Pimg); (n2OrderID, n1Pimg)].

(** The three preimages of the test committed to under other order IDs. *)
Definition swapped_orders : list (order.OrderID * order.Preimage) :=
  [(n3OrderID, n1Pimg); (n1OrderID, n2Pimg); (n2OrderID, n3Pimg)].

(** A note whose order ID is the single byte [a], committed to the second
    preimage of the test. *)
Definition short_note : msgjson.EpochOrderNote :=
  {| msgjson.Side := 1; msgjson.Rate := 1; msgjson.Quantity := 3;
     msgjson.MarketID := "mkt"; msgjson.OrderID := ["a"%byte];
     msgjson.Commitment := proj1_sig (makeCommitment sample_Sum256 n2Pimg) |}.

(** * The v2 database upgrade (server/db/driver/pg/upgrades.go)

    The statistics [v2Upgrade] derives from the matches of each epoch.  The
    database is met through the outcomes of its calls: what [stmt.Query]
    and [rows.Scan] deliver, and whether [reportStmtPrep.Exec] fails. *)
Module pg.
Local Open Scope Z_scope.

(** A [uint64] is a [Z] in [[0, 2^64)]; its arithmetic wraps around. *)
Definition u64 (z : Z) : Z := z mod 2 ^ 64.

(** [math.MaxInt64] *)
Definition MaxInt64 : Z := 2 ^ 63 - 1.

(** One step of [rows.Next(); rows.Scan(&quantity, &rate, &takerSell)]. *)
Inductive scan_result : Type :=
  | ScanRow (quantity rate : Z) (takerSell : bool)
  | ScanError (err : string).

(** What [stmt.Query] returns: an error, or rows to step through followed
    by what [rows.Err()] reports once [rows.Next()] has returned false. *)
Inductive query_result : Type :=
  | QueryError (err : string)
  | QueryRows (rows : list scan_result) (rowsErr : option string).

(** The loop [for rows.Next() { ... }] with its three [append]s; the first
    failing [Scan] ends it. *)
Fixpoint scan_rows (rows : list scan_result) (rates quantities : list Z)
    (sell : list bool) : string + (list Z * list Z * list bool) :=
  match rows with
  | [] => inr (rates, quantities, sell)
  | ScanError err :: _ => inl err
  | ScanRow quantity rate takerSell :: rows' =>
      scan_rows rows' (rates ++ [rate]) (quantities ++ [quantity]) (sell ++ [takerSell])
  end.

(** The results [(rates, quantities, sell, err)]; a nil slice is [[]]. *)
Definition matchStatsForMarketEpoch (query : query_result)
    : list Z * list Z * list bool * option string :=
  match query with
  | QueryError err => ([], [], [], Some err)
  | QueryRows rows rowsErr =>
      match scan_rows rows [] [] [] with
      | inl err => ([], [], [], Some err)
      | inr (rates, quantities, sell) =>
          match rowsErr with
          | Some err => ([], [], [], Some err)
          | None => (rates, quantities, sell, None)
          end
      end
  end.

(** The arguments of one [reportStmtPrep.Exec]: a row of the epoch reports
    table. *)
Record report : Type := Report {
  r_epochEnd : Z;
  r_epochDur : Z;
  r_matchVolume : Z;
  r_quoteVolume : Z;
  r_highRate : Z;
  r_lowRate : Z;
  r_startRate : Z;
  r_endRate : Z
}.

(** The variables [doMarketMatches] carries from one epoch to the next. *)
Record totals : Type := Totals {
  startRate : Z;
  endRate : Z;
  totalMatches : Z;
  totalVolume : Z;
  totalQVolume : Z
}.

(** How a run of the epoch loop ends: it runs through, it returns an
    error, or an index is out of range and the program panics. *)
Inductive ending : Type :=
  | Finished (st : totals)
  | Failed (err : string)
  | Panicked.

(** How one turn of the loop ends. *)
Inductive turn : Type :=
  | TurnDone (r : report) (st : totals)
  | TurnFailed (err : string)
  | TurnPanicked.

(** The database calls of one turn of the epoch loop: the index of the
    epoch, the outcome of the match query and the error, if any, of the
    report's [Exec]. *)
Record epoch_io : Type := EpochIO {
  e_idx : Z;
  e_query : query_result;
  e_exec : option string
}.

Section v2Upgrade.
(** [calc.BaseToQuote] *)
Variable BaseToQuote : Z → Z → Z.

(** [for i, qty := range quantities { ... rates[i] ... }]; [None] when
    [rates[i]] is out of range. *)
Fixpoint volume_loop (i : nat) (quantities rates : list Z)
    (matchVolume quoteVolume highRate lowRate : Z) : option (Z * Z * Z * Z) :=
  match quantities with
  | [] => Some (matchVolume, quoteVolume, highRate, lowRate)
  | qty :: quantities' =>
      match rates !! i with
      | None => None
      | Some rate =>
          volume_loop (S i) quantities' rates
            (u64 (matchVolume + qty))
            (u64 (quoteVolume + BaseToQuote rate qty))
            (if highRate <? rate then rate else highRate)
            (if rate <? lowRate then rate else lowRate)
      end
  end.

(** One turn of [for idx := starts[i]; idx <= endIdx; idx++]: the report
    inserted and the variables carried on, or the error returned, or a
    panic. *)
Definition epoch_turn (dur : Z) (st : totals) (e : epoch_io) : turn :=
  let '(rates, quantities, _, err) := matchStatsForMarketEpoch (e_query e) in
  match err with
  | Some err => TurnFailed err
  | None =>
      let epochEnd := u64 (u64 (e_idx e + 1) * dur) in
      if decide (length rates = 0%nat) then
        let r := Report epochEnd dur 0 0 0 0 (startRate st) (startRate st) in
        match e_exec e with
        | Some err => TurnFailed err
        | None => TurnDone r st
        end
      else
        match volume_loop 0%nat quantities rates 0 0 0 MaxInt64 with
        | None => TurnPanicked
        | Some (matchVolume, quoteVolume, highRate, lowRate) =>
            let totalVolume' := u64 (totalVolume st + matchVolume) in
            let totalQVolume' := u64 (totalQVolume st + quoteVolume) in
            let totalMatches' := u64 (totalMatches st + Z.of_nat (length quantities)) in
            let midRate := u64 (lowRate + highRate) / 2 in
            let startRate' := if decide (startRate st = 0) then midRate else endRate st in
            let endRate' := midRate in
            let r := Report epochEnd dur matchVolume quoteVolume highRate lowRate
                       startRate' endRate' in
            match e_exec e with
            | Some err => TurnFailed err
            | None =>
                TurnDone r (Totals startRate' endRate' totalMatches'
                              totalVolume' totalQVolume')
            end
        end
  end.

(** The turns of the loop for the epochs of one duration, in order: the
    reports inserted, and how the run ends. *)
Fixpoint epoch_loop (dur : Z) (st : totals) (es : list epoch_io) : list report * ending :=
  match es with
  | [] => ([], Finished st)
  | e :: es' =>
      match epoch_turn dur st e with
      | TurnDone r st' => let '(rs, fin) := epoch_loop dur st' es' in (r :: rs, fin)
      | TurnFailed err => ([], Failed err)
      | TurnPanicked => ([], Panicked)
      end
  end.
End v2Upgrade.

(** The match rows of an epoch, as [matchStatsForMarketEpoch] reads them. *)
Definition epoch_rates (e : epoch_io) : list Z :=
  (matchStatsForMarketEpoch (e_query e)).1.1.1.

Definition epoch_quantities (e : epoch_io) : list Z :=
  (matchStatsForMarketEpoch (e_query e)).1.1.2.

(** ** upgradeDB

    The database is a state of some type [DB]; the queries and statements
    [upgradeDB] issues are functions on it, as are the two upgrades, whose
    SQL is not looked into.  A failing statement may still leave the
    database changed. *)

Definition dbVersion : N := 2.

(** The errors [upgradeDB] returns: one passed on as it is, or one of its
    four [fmt.Errorf] messages with what it prints. *)
Inductive upgrade_error : Type :=
  | ErrDB (err : string)
  | ErrGetVersion (err : string)
  | ErrNewer (current : N)
  | ErrUpgrade (targetVer : N) (err : string)
  | ErrSetVersion (targetVer : N) (err : string).

(** What [upgradeDB] has carried out: an upgrade function that returned
    nil, a [setDBVersion] that returned nil. *)
Inductive step : Type :=
  | Upgraded (targetVer : N)
  | VersionSet (targetVer : N).

Section upgradeDB.
Variable DB : Type.
(** [tableExists(db, metaTableName)] and
    [columnExists(db, "public", metaTableName, "schema_version")] *)
Variable tableExists : DB → string + bool.
Variable columnExists : DB → string + bool.
(** [db.QueryRow(internal.SelectDBVersion).Scan(&ver)] *)
Variable selectDBVersion : DB → string + N.
(** [db.Exec(internal.SetDBVersion, ver)]: the database after it, and its
    error or else what [res.RowsAffected()] returns. *)
Variable execSetDBVersion : DB → N → DB * (string + (string + Z)).
(** [v1Upgrade] and [v2Upgrade] *)
Variable v1Upgrade v2Upgrade : DB → DB * option string.

Definition upgrades : list (DB → DB * option string) := [v1Upgrade; v2Upgrade].

Definition DBVersion (db : DB) : N * option string :=
  match selectDBVersion db with
  | inl err => (0%N, Some err)
  | inr ver => (ver, None)
  end.

Definition setDBVersion (db : DB) (ver : N) : DB * option string :=
  let '(db', res) := execSetDBVersion db ver in
  match res with
  | inl err => (db', Some err)
  | inr (inl err) => (db', Some err)
  | inr (inr n) =>
      if decide (n ≠ 1) then (db', Some "set the DB version in n rows instead of 1"%string)
      else (db', None)
  end.

(** [for i, up := range upgrades[current:] { ... }], from index [i] on. *)
Fixpoint run_upgrades (db : DB) (current : N) (i : nat)
    (ups : list (DB → DB * option string)) : DB * list step * option upgrade_error :=
  match ups with
  | [] => (db, [], None)
  | up :: ups' =>
      let targetVer := (current + N.of_nat i + 1)%N in
      let '(db1, err) := up db in
      match err with
      | Some err => (db1, [], Some (ErrUpgrade targetVer err))
      | None =>
          let '(db2, err) := setDBVersion db1 targetVer in
          match err with
          | Some err => (db2, [Upgraded targetVer], Some (ErrSetVersion targetVer err))
          | None =>
              let '(db3, steps, err) := run_upgrades db2 current (S i) ups' in
              (db3, Upgraded targetVer :: VersionSet targetVer :: steps, err)
          end
      end
  end.

(** The version the upgrade starts from: 0 without a meta table or without
    its [schema_version] column. *)
Definition current_version (db : DB) : upgrade_error + N :=
  match tableExists db with
  | inl err => inl (ErrDB err)
  | inr false => inr 0%N
  | inr true =>
      match columnExists db with
      | inl err => inl (ErrDB err)
      | inr false => inr 0%N
      | inr true =>
          match DBVersion db with
          | (_, Some err) => inl (ErrGetVersion err)
          | (ver, None) => inr ver
          end
      end
  end.

(** The database [upgradeDB] leaves, the steps it carried out and the
    error it returns. *)
Definition upgradeDB (db : DB) : DB * list step * option upgrade_error :=
  match current_version db with
  | inl err => (db, [], Some err)
  | inr current =>
      if decide (current = dbVersion) then (db, [], None)
      else if decide (dbVersion < current)%N then (db, [], Some (ErrNewer current))
      else
        let '(db', steps, err) :=
          run_upgrades db current 0 (drop (N.to_nat current) upgrades) in
        match err with
        | Some err => (db', steps, Some err)
        | None =>
            match DBVersion db' with
            | (_, Some err) => (db', steps, Some (ErrGetVersion err))
            | (_, None) => (db', steps, None)
            end
        end
  end.
End upgradeDB.

(** The steps of a complete upgrade from version [current]. *)
Definition steps_from (current : N) : list step :=
  drop (2 * N.to_nat current) [Upgraded 1; VersionSet 1; Upgraded 2; VersionSet 2].


End pg.

(** * The fee check of 'notifyfee' (server/auth)

    The function [handleNotifyFee] hands to the coin waiter.  What the
    calls it makes return is given: the fee found by [auth.checkFee], and
    the errors, if any, of [storage.PayAccount], [auth.Sign] and
    [msgjson.NewResponse].  What it does is listed: the account paid, a
    response sent. *)
Module auth.
Local Open Scope Z_scope.

(** [coinwaiter.TryAgain] and [coinwaiter.DontTryAgain] *)
Inductive again : Type := TryAgain | DontTryAgain.

(** The codes of the errors the check answers with. *)
Inductive error_code : Type := FeeError | RPCInternalError.

(** [addr, val, confs, err := auth.checkFee(notifyFee.CoinID)] *)
Record fee : Type := Fee {
  addr : string;
  val : Z;
  confs : Z;
  checkErr : option string
}.

(** The errors of the calls made after the fee is found good. *)
Record calls : Type := Calls {
  payErr : option string;
  signErr : option string;
  resultRespErr : option string;
  errorRespErr : option string
}.

Inductive action : Type :=
  | PayAccount
  | SendResult
  | SendError (code : error_code) (message : string).

(** The deferred function: an error set in [msgErr] is sent, unless the
    response cannot be encoded. *)
Definition send_msgErr (c : calls) (code : error_code) (message : string) : list action :=
  match errorRespErr c with
  | Some _ => []
  | None => [SendError code message]
  end.

Definition check_fee (regFee feeConfs : Z) (regAddr : string) (f : fee) (c : calls)
    : again * list action :=
  if decide (is_Some (checkErr f) ∨ confs f < feeConfs) then (TryAgain, [])
  else if decide (val f < regFee) then
    (DontTryAgain, send_msgErr c FeeError "fee too low")
  else if decide (addr f ≠ regAddr) then
    (DontTryAgain,
     send_msgErr c FeeError ("wrong fee address. wanted " ++ regAddr ++ " got " ++ addr f))
  else
    match payErr c with
    | Some err =>
        (DontTryAgain,
         PayAccount :: send_msgErr c RPCInternalError ("storage.PayAccount failed: " ++ err))
    | None =>
        match signErr c with
        | Some _ =>
            (DontTryAgain,
             PayAccount :: send_msgErr c RPCInternalError "internal signature error")
        | None =>
            match resultRespErr c with
            | Some _ =>
                (DontTryAgain,
                 PayAccount :: send_msgErr c RPCInternalError "internal encoding error")
            | None => (DontTryAgain, [PayAccount; SendResult])
            end
        end
    end.
End auth.

(** ** Sample epochs

    A stand-in for [calc.BaseToQuote] (the quote amount of a base quantity
    at a rate scaled by 1e8) and three epochs of a 10 s market: two matches,
    none, one match. *)
Definition sample_BaseToQuote (rate base : Z) : Z :=
  pg.u64 (rate * base / 100000000)%Z.

Definition two_matches : pg.epoch_io :=
  pg.EpochIO 10
    (pg.QueryRows [pg.ScanRow 300000000 2000000 true;
                   pg.ScanRow 100000000 2100000 false] None) None.

Definition no_matches (idx : Z) : pg.epoch_io :=
  pg.EpochIO idx (pg.QueryRows [] None) None.

Definition one_match : pg.epoch_io :=
  pg.EpochIO 13 (pg.QueryRows [pg.ScanRow 500000000 1900000 true] None) None.

(** The variables carried into epoch 10 from earlier epochs. *)
Definition carried : pg.totals := pg.Totals 1950000 2000000 2 600000000 12000000.

(** ** Notions the properties are stated with *)

(** The row a triple of scanned values comes from. *)
Definition row_of (x : Z * Z * bool) : pg.scan_result := pg.ScanRow x.1.1 x.1.2 x.2.

(** The steps of the upgrades [i], [i+1], ... of a run that started at
    version [current]. *)
Definition steps_of (current : N) (i n : nat) : list pg.step :=
  flat_map (λ k, [pg.Upgraded (current + N.of_nat k + 1);
                  pg.VersionSet (current + N.of_nat k + 1)]%N) (seq i n).

(** What a step stands for, and the database after a list of steps is
    carried out on it, each returning nil: the upgrade to version 1 is
    [v1Upgrade], the upgrade to version 2 is [v2Upgrade], and a version is
    recorded by [setDBVersion]. *)
Section replay.
Variable DB : Type.
Variable execSetDBVersion : DB → N → DB * (string + (string + Z)).
Variable v1Upgrade v2Upgrade : DB → DB * option string.

Definition upgrade_to (k : N) : DB → DB * option string :=
  match k with
  | 1%N => v1Upgrade
  | 2%N => v2Upgrade
  | _ => λ db, (db, None)
  end.

Fixpoint replay (steps : list pg.step) (db : DB) : option DB :=
  match steps with
  | [] => Some db
  | pg.Upgraded k :: steps' =>
      match upgrade_to k db with
      | (db1, None) => replay steps' db1
      | (_, Some _) => None
      end
  | pg.VersionSet k :: steps' =>
      match pg.setDBVersion DB execSetDBVersion db k with
      | (db1, None) => replay steps' db1
      | (_, Some _) => None
      end
  end.
End replay.

(** A response, of either kind. *)
Definition is_response (a : auth.action) : Prop := a ≠ auth.PayAccount.

Global Instance is_response_dec (a : auth.action) : Decision (is_response a).
Proof. unfold is_response. destruct a; [right|left..]; by auto. Defined.

(** ** A sample database

    All that is kept of a database is the schema version its meta table
    records, [None] when there is no meta table.  The v1 upgrade creates the
    table with the column's default 0; the v2 upgrade leaves the meta table
    alone. *)
Definition sample_DB : Type := option N.

Definition sample_tableExists (db : sample_DB) : string + bool :=
  inr (bool_decide (is_Some db)).

Definition sample_columnExists (db : sample_DB) : string + bool := inr true.

Definition sample_selectDBVersion (db : sample_DB) : string + N :=
  match db with
  | Some ver => inr ver
  | None => inl "relation meta does not exist"%string
  end.

Definition sample_execSetDBVersion (db : sample_DB) (ver : N)
    : sample_DB * (string + (string + Z)) :=
  match db with
  | Some _ => (Some ver, inr (inr 1%Z))
  | None => (None, inl "relation meta does not exist"%string)
  end.

Definition sample_v1Upgrade (db : sample_DB) : sample_DB * option string :=
  (Some (default 0%N db), None).

Definition sample_v2Upgrade (db : sample_DB) : sample_DB * option string := (db, None).

(** ** A sample database with a report table

    The schema version of the meta table as above, and whether the
    [epochs_report] table exists, which the v2 upgrade creates. *)
Record sample_store : Type := Store { s_meta : option N; s_reports : bool }.

Definition store_tableExists (db : sample_store) : string + bool :=
  inr (bool_decide (is_Some (s_meta db))).

Definition store_columnExists (db : sample_store) : string + bool := inr true.

Definition store_selectDBVersion (db : sample_store) : string + N :=
  match s_meta db with
  | Some ver => inr ver
  | None => inl "relation meta does not exist"%string
  end.

Definition store_execSetDBVersion (db : sample_store) (ver : N)
    : sample_store * (string + (string + Z)) :=
  match s_meta db with
  | Some _ => (Store (Some ver) (s_reports db), inr (inr 1%Z))
  | None => (db, inl "relation meta does not exist"%string)
  end.

Definition store_v1Upgrade (db : sample_store) : sample_store * option string :=
  (Store (Some (default 0%N (s_meta db))) (s_reports db), None).

Definition store_v2Upgrade (db : sample_store) : sample_store * option string :=
  (Store (s_meta db) true, None).

(** * Properties *)

(** ** bytes.Compare is a total order on byte slices *)

Lemma byte_to_N_inj (x y : byte) : Byte.to_N x = Byte.to_N y → x = y.
Proof.
  intros E. apply (inj Some). by rewrite <-(Byte.of_to_N x), <-(Byte.of_to_N y), E.
Qed.

Lemma bytes_Compare_range a b :
  bytes.Compare a b = (-1)%Z ∨ bytes.Compare a b = 0%Z ∨ bytes.Compare a b = 1%Z.
Proof.
  revert b. induction a as [|x a IH]; intros [|y b]; simpl; auto.
  destruct (Byte.to_N x ?= Byte.to_N y)%N; auto.
Qed.

Lemma bytes_Compare_refl a : bytes.Compare a a = 0%Z.
Proof. induction a as [|x a IH]; simpl; [done|]. by rewrite N.compare_refl. Qed.

Lemma bytes_Compare_eq a b : bytes.Compare a b = 0%Z → a = b.
Proof.
  revert b. induction a as [|x a IH]; intros [|y b]; simpl; try done.
  destruct (N.compare_spec (Byte.to_N x) (Byte.to_N y)) as [E| |]; try done.
  intros ?. f_equal; [by apply byte_to_N_inj | by apply IH].
Qed.

Lemma bytes_Compare_antisym a b : bytes.Compare b a = (- bytes.Compare a b)%Z.
Proof.
  revert b. induction a as [|x a IH]; intros [|y b]; simpl; try done.
  rewrite (N.compare_antisym (Byte.to_N x) (Byte.to_N y)).
  destruct (Byte.to_N x ?= Byte.to_N y)%N; simpl; auto.
Qed.

Lemma bytes_Compare_trans a b c :
  (bytes.Compare a b ≤ 0)%Z → (bytes.Compare b c ≤ 0)%Z → (bytes.Compare a c ≤ 0)%Z.
Proof.
  revert b c. induction a as [|x a IH]; intros [|y b] [|z c]; simpl; try lia.
  destruct (N.compare_spec (Byte.to_N x) (Byte.to_N y)) as [Exy|Lxy|Gxy];
    destruct (N.compare_spec (Byte.to_N y) (Byte.to_N z)) as [Eyz|Lyz|Gyz];
    destruct (N.compare_spec (Byte.to_N x) (Byte.to_N z)) as [Exz|Lxz|Gxz];
    try lia.
  apply IH.
Qed.

(** ** sort.Slice returns the sorted arrangement of its argument *)

Section sort_Slice.
Context {A : Type} (less : A → A → bool).

Lemma sort_insert_sorted_Permutation x l : sort.insert_sorted less x l ≡ₚ x :: l.
Proof.
  induction l as [|y l IH]; simpl; [done|].
  destruct (less x y); [done|]. by rewrite IH, Permutation_swap.
Qed.

Lemma sort_Slice_Permutation l : sort.Slice less l ≡ₚ l.
Proof.
  induction l as [|x l IH]; simpl; [done|].
  by rewrite sort_insert_sorted_Permutation, IH.
Qed.

Lemma sort_Slice_length l : length (sort.Slice less l) = length l.
Proof. by rewrite sort_Slice_Permutation. Qed.

Lemma sort_Slice_fmap {B : Type} (f : B → A) (l : list B) :
  sort.Slice less (f <$> l) = f <$> sort.Slice (λ a b, less (f a) (f b)) l.
Proof.
  unfold sort.Slice. induction l as [|x l IH]; csimpl; [done|]. rewrite IH. clear IH.
  induction (foldr _ _ l) as [|y s IH]; csimpl; [done|].
  destruct (less (f x) (f y)); csimpl; [done|]. by rewrite IH.
Qed.

Hypothesis less_asym : ∀ x y, less x y = true → less y x = false.

Lemma sort_insert_sorted_HdRel y x l :
  sorted_by less y x → HdRel (sorted_by less) y l →
  HdRel (sorted_by less) y (sort.insert_sorted less x l).
Proof.
  intros Hyx Hl. destruct l as [|z l]; simpl; [by constructor|].
  destruct (less x z); constructor; [done|]. by inversion Hl.
Qed.

Lemma sort_insert_sorted_Sorted x l :
  Sorted (sorted_by less) l → Sorted (sorted_by less) (sort.insert_sorted less x l).
Proof.
  induction 1 as [|y l Hl IH Hy]; simpl; [by repeat constructor|].
  destruct (less x y) eqn:Exy.
  - constructor; [by constructor|]. constructor. by apply less_asym.
  - constructor; [done|]. by apply sort_insert_sorted_HdRel.
Qed.

Lemma sort_Slice_Sorted l : Sorted (sorted_by less) (sort.Slice less l).
Proof.
  induction l as [|x l IH]; simpl; [constructor|].
  by apply sort_insert_sorted_Sorted.
Qed.

Context `{!Transitive (sorted_by less), !AntiSymm (=) (sorted_by less)}.

(** Whatever algorithm sorts the slice, the outcome is the same. *)
Lemma sort_Slice_unique l s : Sorted (sorted_by less) s → s ≡ₚ l → s = sort.Slice less l.
Proof.
  intros Hs Hp. apply (Sorted_unique (sorted_by less)); [done|apply sort_Slice_Sorted|].
  by rewrite sort_Slice_Permutation.
Qed.

Lemma sort_Slice_perm l1 l2 : l1 ≡ₚ l2 → sort.Slice less l1 = sort.Slice less l2.
Proof.
  intros Hp. apply sort_Slice_unique; [apply sort_Slice_Sorted|].
  by rewrite sort_Slice_Permutation.
Qed.
End sort_Slice.

(** The order on arrays the two sorts use. *)
Lemma array_less_asym (a b : Array32) : array_less a b = true → array_less b a = false.
Proof.
  unfold array_less. rewrite (bytes_Compare_antisym (`a) (`b)). lia.
Qed.

Lemma sorted_by_array_less (a b : Array32) :
  sorted_by array_less a b ↔ (bytes.Compare (`a) (`b) ≤ 0)%Z.
Proof.
  unfold sorted_by, array_less. rewrite (bytes_Compare_antisym (`a) (`b)). lia.
Qed.

Global Instance array_sorted_by_trans : Transitive (sorted_by array_less).
Proof.
  intros a b c. rewrite !sorted_by_array_less. apply bytes_Compare_trans.
Qed.

Global Instance array_sorted_by_antisym : AntiSymm (=) (sorted_by array_less).
Proof.
  intros a b. rewrite !sorted_by_array_less. intros Hab Hba.
  rewrite (bytes_Compare_antisym (`a) (`b)) in Hba.
  apply (sig_eq_pi _), bytes_Compare_eq. lia.
Qed.

Lemma array_Slice_perm (l1 l2 : list Array32) :
  l1 ≡ₚ l2 → sort.Slice array_less l1 = sort.Slice array_less l2.
Proof. apply (sort_Slice_perm array_less array_less_asym). Qed.

(** ** Arrays and slices *)

Lemma copy_full (dst src : list byte) : length src = length dst → copy dst src = src.
Proof.
  intros E. unfold copy. rewrite E, drop_all, app_nil_r.
  rewrite <-E. apply firstn_all.
Qed.

(** Copying the slice [a[:]] of an array into a fresh array gives [a] back. *)
Lemma array_of_slice_proj (a : Array32) : array_of_slice (`a) = a.
Proof.
  apply (sig_eq_pi _), copy_full.
  exact (eq_trans (proj2_sig a) (eq_sym (proj2_sig zero32))).
Qed.

(** ** Removing the misses *)

Lemma lookup_remove_misses (misses : list order.OrderID)
    (m : gmap order.OrderID order.Commitment) (oid : order.OrderID) :
  remove_misses misses m !! oid = if decide (oid ∈ misses) then None else m !! oid.
Proof.
  revert m. induction misses as [|x misses IH]; intros m.
  - case_decide as H; [by apply elem_of_nil in H|done].
  - change (remove_misses (x :: misses) m) with (remove_misses misses (delete x m)).
    rewrite IH. destruct (decide (oid ∈ misses)) as [Hin|Hout].
    + case_decide as H; [done|]. destruct H. by right.
    + destruct (decide (oid = x)) as [->|Hne].
      * rewrite lookup_delete_eq. case_decide as H; [done|]. destruct H. left.
      * rewrite lookup_delete_ne by done. case_decide as H; [|done].
        by apply elem_of_cons in H as [?|?].
Qed.

Lemma remove_misses_filter (misses : list order.OrderID)
    (m : gmap order.OrderID order.Commitment) :
  remove_misses misses m = without_misses misses m.
Proof.
  unfold without_misses.
  apply map_eq. intros oid. rewrite lookup_remove_misses, map_lookup_filter.
  destruct (m !! oid) as [c|]; simpl; repeat case_decide; done.
Qed.

Lemma remove_misses_nil (m : gmap order.OrderID order.Commitment) : remove_misses [] m = m.
Proof. done. Qed.

Lemma remove_misses_idemp (misses : list order.OrderID)
    (m : gmap order.OrderID order.Commitment) :
  remove_misses misses (remove_misses misses m) = remove_misses misses m.
Proof.
  apply map_eq. intros oid. rewrite !lookup_remove_misses. by case_decide.
Qed.

Lemma elem_of_range_of (it : MapRange) (n : nat) (m : gmap order.OrderID order.Commitment)
    (oid : order.OrderID) (c : order.Commitment) :
  (oid, c) ∈ range_of it n m ↔ m !! oid = Some c.
Proof. by rewrite (range_of_perm it n m), elem_of_map_to_list. Qed.

(** ** Matching preimages to orders *)

Section matching.
Variable Sum256 : list byte → Array32.

Implicit Types (m : gmap order.OrderID order.Commitment).
Implicit Types (op : gmap order.OrderID order.Preimage).
Implicit Types (p : order.Preimage) (pre : list order.Preimage).
Implicit Types (oid : order.OrderID) (c : order.Commitment).

Lemma match_preimage_cases visit p op :
  (match_preimage Sum256 visit p op = op ∧
     ∀ oid c, (oid, c) ∈ visit → c ≠ Sum256 (`p)) ∨
  (∃ oid, (oid, Sum256 (`p)) ∈ visit ∧
     match_preimage Sum256 visit p op = <[oid := p]> op).
Proof.
  induction visit as [|[oid c] visit IH]; simpl.
  - left. split; [done|]. by intros ?? ?%elem_of_nil.
  - case_decide as Hc.
    + right. exists oid. subst c. split; [left|done].
    + destruct IH as [[-> Hno]|(oid' & Hin & ->)].
      * left. split; [done|]. intros oid' c' [[= -> ->]|?]%elem_of_cons; eauto.
      * right. exists oid'. split; [by right|done].
Qed.

(** Running the inner loop again with the same visiting order and the
    same preimage changes nothing. *)
Lemma match_preimage_idemp visit p op :
  match_preimage Sum256 visit p (match_preimage Sum256 visit p op) =
  match_preimage Sum256 visit p op.
Proof.
  induction visit as [|[oid c] visit IH]; simpl; [done|].
  case_decide; [by rewrite insert_insert_eq | done].
Qed.

Lemma match_preimage_lookup_Some (it : MapRange) n m p op oid p' :
  match_preimage Sum256 (range_of it n m) p op !! oid = Some p' →
  op !! oid = Some p' ∨ (p' = p ∧ m !! oid = Some (Sum256 (`p))).
Proof.
  destruct (match_preimage_cases (range_of it n m) p op)
    as [[-> _]|(oid' & Hin & ->)]; [by left|].
  apply elem_of_range_of in Hin.
  rewrite lookup_insert. case_decide; [|by left].
  intros [= <-]. subst oid'. by right.
Qed.

Lemma match_preimages_lookup_Some (it : MapRange) n m pre op oid p :
  match_preimages Sum256 it n m pre op !! oid = Some p →
  op !! oid = Some p ∨ (p ∈ pre ∧ m !! oid = Some (Sum256 (`p))).
Proof.
  revert n op. induction pre as [|p0 pre IH]; intros n op; simpl; [by left|].
  intros [Hop|[Hin Hm]]%IH.
  - apply match_preimage_lookup_Some in Hop as [?|[-> ?]]; [by left|].
    right. split; [left|done].
  - right. split; [by right|done].
Qed.

Lemma size_match_preimage_le visit p op :
  size (match_preimage Sum256 visit p op) ≤ S (size op).
Proof.
  destruct (match_preimage_cases visit p op) as [[-> _]|(oid & _ & ->)].
  - apply Nat.le_succ_diag_r.
  - rewrite map_size_insert. case_match; [apply Nat.le_succ_diag_r | done].
Qed.

Lemma size_match_preimages_le (it : MapRange) n m pre op :
  size (match_preimages Sum256 it n m pre op) ≤ size op + length pre.
Proof.
  revert n op. induction pre as [|p pre IH]; intros n op; simpl; [lia|].
  etrans; [apply IH|]. pose proof (size_match_preimage_le (range_of it n m) p op). lia.
Qed.

(** The orders matched to a preimage are orders of the queue. *)
Lemma dom_match_preimages (it : MapRange) n m pre :
  dom (match_preimages Sum256 it n m pre ∅) ⊆ dom m.
Proof.
  intros oid [p Hp]%elem_of_dom.
  apply match_preimages_lookup_Some in Hp as [Hp|[_ Hm]]; [by rewrite lookup_empty in Hp|].
  apply elem_of_dom. eauto.
Qed.

Lemma size_match_preimages_dom (it : MapRange) n m pre :
  size (match_preimages Sum256 it n m pre ∅) ≤ size m.
Proof.
  rewrite <-!size_dom. apply subseteq_size, dom_match_preimages.
Qed.

(** An order none of the supplied preimages hashes to stays unmatched,
    and the count of matched orders stays below the queue's. *)
Lemma match_preimages_unrevealed (it : MapRange) n m pre oid c :
  m !! oid = Some c → (∀ p, p ∈ pre → Sum256 (`p) ≠ c) →
  match_preimages Sum256 it n m pre ∅ !! oid = None.
Proof.
  intros Hm Hno.
  destruct (match_preimages Sum256 it n m pre ∅ !! oid) as [p|] eqn:Hp; [|done].
  apply match_preimages_lookup_Some in Hp as [Hp|[Hin Hm']]; [by rewrite lookup_empty in Hp|].
  rewrite Hm in Hm'. injection Hm' as ->. by destruct (Hno p).
Qed.

Lemma size_match_preimages_unrevealed (it : MapRange) n m pre oid c :
  m !! oid = Some c → (∀ p, p ∈ pre → Sum256 (`p) ≠ c) →
  size (match_preimages Sum256 it n m pre ∅) < size m.
Proof.
  intros Hm Hno. rewrite <-!size_dom. apply subset_size. split.
  - apply dom_match_preimages.
  - intros Hsub. assert (oid ∈ dom m) as Hin%Hsub by (apply elem_of_dom; eauto).
    apply elem_of_dom in Hin as [p Hp].
    by rewrite (match_preimages_unrevealed it n m pre oid c) in Hp.
Qed.

(** Preimages no order of the queue is committed to are skipped. *)
Lemma match_preimages_surplus (it : MapRange) n m extra op :
  (∀ p oid, p ∈ extra → m !! oid ≠ Some (Sum256 (`p))) →
  match_preimages Sum256 it n m extra op = op.
Proof.
  revert n. induction extra as [|p extra IH]; intros n Hno; simpl; [done|].
  destruct (match_preimage_cases (range_of it n m) p op)
    as [[-> _]|(oid & Hin%elem_of_range_of & _)].
  - apply IH. intros ???. apply Hno. by right.
  - destruct (Hno p oid); [left|done].
Qed.

Lemma match_preimages_app (it : MapRange) n m pre1 pre2 op :
  match_preimages Sum256 it n m (pre1 ++ pre2) op =
  match_preimages Sum256 it (n + length pre1) m pre2 (match_preimages Sum256 it n m pre1 op).
Proof.
  revert n op. induction pre1 as [|p pre1 IH]; intros n op; simpl.
  - by rewrite Nat.add_0_r.
  - rewrite IH. by rewrite Nat.add_succ_r.
Qed.
End matching.

(** ** Distinct commitments make the matching deterministic *)

Lemma NoDup_fmap_elem_inj {A B : Type} (f : A → B) (l : list A) (x y : A) :
  NoDup (f <$> l) → x ∈ l → y ∈ l → f x = f y → x = y.
Proof.
  induction l as [|a l IH]; csimpl; [by intros _ ?%elem_of_nil|].
  rewrite NoDup_cons. intros [Ha Hl] Hx Hy E.
  apply elem_of_cons in Hx as [Ex|Hx]; apply elem_of_cons in Hy as [Ey|Hy].
  - congruence.
  - subst a. destruct Ha. rewrite E. by apply list_elem_of_fmap_2.
  - subst a. destruct Ha. rewrite <-E. by apply list_elem_of_fmap_2.
  - by apply IH.
Qed.

Lemma distinct_commitments_inj (m : gmap order.OrderID order.Commitment)
    (o1 o2 : order.OrderID) (c : order.Commitment) :
  distinct_commitments m → m !! o1 = Some c → m !! o2 = Some c → o1 = o2.
Proof.
  intros Hnd H1%elem_of_map_to_list H2%elem_of_map_to_list.
  by injection (NoDup_fmap_elem_inj snd _ (o1, c) (o2, c) Hnd H1 H2 eq_refl).
Qed.

Section determinism.
Variable Sum256 : list byte → Array32.

Implicit Types (m : gmap order.OrderID order.Commitment).
Implicit Types (op : gmap order.OrderID order.Preimage).
Implicit Types (p : order.Preimage) (pre : list order.Preimage).
Implicit Types (oid : order.OrderID) (c : order.Commitment).

Lemma revealed_for_Some pre c p :
  revealed_for Sum256 pre c = Some p → p ∈ pre ∧ Sum256 (`p) = c.
Proof.
  induction pre as [|p0 pre IH]; simpl; [done|].
  destruct (revealed_for Sum256 pre c) as [q|].
  - intros [= ->]. destruct IH as [??]; [done|]. split; [by right|done].
  - case_decide; [|done]. intros [= ->]. split; [left|done].
Qed.

Lemma revealed_for_None pre c :
  revealed_for Sum256 pre c = None ↔ c ∉ makeCommitment Sum256 <$> pre.
Proof.
  induction pre as [|p0 pre IH]; csimpl; [by split; [intros _ ?%elem_of_nil|]|].
  rewrite not_elem_of_cons, <-IH. unfold makeCommitment.
  destruct (revealed_for Sum256 pre c) as [q|]; [by split; [|intros [_ ?]]|].
  case_decide as Hc; (split; [intros ?|intros [??]]); done.
Qed.

Lemma match_preimage_lookup (it : MapRange) n m p op oid :
  distinct_commitments m →
  match_preimage Sum256 (range_of it n m) p op !! oid =
    if decide (m !! oid = Some (Sum256 (`p))) then Some p else op !! oid.
Proof.
  intros Hd.
  destruct (match_preimage_cases Sum256 (range_of it n m) p op)
    as [[-> Hno]|(oid' & Hin%elem_of_range_of & ->)].
  - case_decide as Hm; [|done]. apply (elem_of_range_of it n) in Hm. by destruct (Hno _ _ Hm).
  - rewrite lookup_insert. destruct (decide (oid' = oid)) as [->|Hne].
    + by rewrite decide_True.
    + rewrite decide_False; [done|]. intros Hm. destruct Hne.
      by apply (distinct_commitments_inj m _ _ (Sum256 (`p))).
Qed.

Lemma match_preimages_lookup (it : MapRange) n m pre op oid :
  distinct_commitments m →
  match_preimages Sum256 it n m pre op !! oid =
    match m !! oid ≫= revealed_for Sum256 pre with
    | Some p => Some p
    | None => op !! oid
    end.
Proof.
  intros Hd. revert n op. induction pre as [|p pre IH]; intros n op; simpl.
  - by destruct (m !! oid).
  - rewrite IH, match_preimage_lookup by done.
    destruct (m !! oid) as [c|]; simpl; [|done].
    destruct (revealed_for Sum256 pre c); [done|].
    repeat case_decide; by simplify_eq.
Qed.

(** With distinct commitments the matched map does not depend on the
    order the queue is visited in. *)
Lemma match_preimages_omap (it : MapRange) n m pre :
  distinct_commitments m →
  match_preimages Sum256 it n m pre ∅ = omap (revealed_for Sum256 pre) m.
Proof.
  intros Hd. apply map_eq. intros oid.
  rewrite match_preimages_lookup, lookup_omap, lookup_empty by done.
  by destruct (_ ≫= _).
Qed.

Lemma revealed_for_surplus (surplus : order.Preimage → Prop) pre pre' c :
  with_surplus surplus pre pre' → (∀ x, surplus x → Sum256 (`x) ≠ c) →
  revealed_for Sum256 pre' c = revealed_for Sum256 pre c.
Proof.
  intros Hs Hc. induction Hs as [|p pre pre' _ IH|x pre pre' Hx _ IH]; simpl.
  - done.
  - by rewrite IH.
  - rewrite IH. destruct (revealed_for Sum256 pre c); [done|].
    rewrite decide_False; [done|]. by apply Hc.
Qed.

Lemma size_omap_revealed m pre :
  map_Forall (λ _ c, c ∈ makeCommitment Sum256 <$> pre) m →
  size (omap (revealed_for Sum256 pre) m) = size m.
Proof.
  intros Hall. rewrite <-!size_dom. f_equal. apply set_eq. intros oid.
  rewrite !elem_of_dom, lookup_omap. destruct (m !! oid) as [c|] eqn:Hm; simpl.
  - split; [eauto|]. intros _.
    destruct (revealed_for Sum256 pre c) as [p|] eqn:Hr; [eauto|].
    apply revealed_for_None in Hr. destruct Hr. by apply (Hall oid).
  - split; by intros [??].
Qed.
End determinism.

(** ** The two buffers and the success path *)

Lemma foldl_app_concat {A B : Type} (f : B → list A) (acc : list A) (l : list B) :
  foldl (λ buf x, buf ++ f x) acc l = acc ++ concat (f <$> l).
Proof.
  revert acc. induction l as [|x l IH]; intros acc; csimpl.
  - by rewrite app_nil_r.
  - by rewrite IH, app_assoc.
Qed.

Lemma csum_buffer_concat (commits : list order.Commitment) :
  csum_buffer commits = concat (proj1_sig <$> commits).
Proof. unfold csum_buffer. by rewrite foldl_app_concat. Qed.

Lemma seed_buffer_concat (op : gmap order.OrderID order.Preimage) (oids : list order.OrderID) :
  seed_buffer op oids = concat ((λ oid, proj1_sig (default zero32 (op !! oid))) <$> oids).
Proof. unfold seed_buffer. by rewrite foldl_app_concat. Qed.

(** Reading the preimages of listed orders off the map of those orders. *)
Lemma seed_buffer_listed (os sorted : list (order.OrderID * order.Preimage)) :
  NoDup os.*1 → sorted ⊆ os →
  seed_buffer (list_to_map os) sorted.*1 = concat (proj1_sig <$> sorted.*2).
Proof.
  intros Hnd Hsub. rewrite seed_buffer_concat. f_equal.
  rewrite <-!list_fmap_compose. apply Forall_fmap_ext_1, Forall_forall.
  intros [oid p] Hin%Hsub. simpl.
  by rewrite (elem_of_list_to_map_1 (M:=gmap order.OrderID) os oid p).
Qed.

Section derive.
Variable Sum256 : list byte → Array32.

(** The visiting order of the extraction loop is immaterial. *)
Lemma derive_proof_perm (visit visit' : list (order.OrderID * order.Commitment))
    (op : gmap order.OrderID order.Preimage) :
  visit ≡ₚ visit' → derive_proof Sum256 visit op = derive_proof Sum256 visit' op.
Proof.
  intros Hp. unfold derive_proof.
  by rewrite (array_Slice_perm visit.*1 visit'.*1), (array_Slice_perm visit.*2 visit'.*2)
    by (by rewrite Hp).
Qed.

Lemma derive_proof_err (visit : list (order.OrderID * order.Commitment))
    (op : gmap order.OrderID order.Preimage) :
  proof_err (derive_proof Sum256 visit op) = None.
Proof. done. Qed.

(** [GenerateMatchProof] unfolded, with the extraction loop visiting the
    map in its own listing order. *)
Lemma GenerateMatchProof_unfold (it : MapRange) (q : EpochQueue)
    (pre : list order.Preimage) (misses : list order.OrderID) :
  GenerateMatchProof Sum256 it q pre misses =
    let m := remove_misses misses (orders q) in
    let op := match_preimages Sum256 it 0 m pre ∅ in
    ({| orders := m |},
     if decide (size op ≠ size m)
     then (None, None, Some (errUnmatched (size op) (size m)))
     else derive_proof Sum256 (map_to_list m) op).
Proof.
  unfold GenerateMatchProof. simpl. case_decide; [done|].
  f_equal. apply derive_proof_perm, range_of_perm.
Qed.

(** With distinct commitments among the remaining orders the whole call
    is independent of the visiting orders. *)
Lemma GenerateMatchProof_distinct (it : MapRange) (q : EpochQueue)
    (pre : list order.Preimage) (misses : list order.OrderID) :
  distinct_commitments (remove_misses misses (orders q)) →
  GenerateMatchProof Sum256 it q pre misses =
    let m := remove_misses misses (orders q) in
    let op := omap (revealed_for Sum256 pre) m in
    ({| orders := m |},
     if decide (size op ≠ size m)
     then (None, None, Some (errUnmatched (size op) (size m)))
     else derive_proof Sum256 (map_to_list m) op).
Proof.
  intros Hd. rewrite GenerateMatchProof_unfold. simpl.
  by rewrite match_preimages_omap.
Qed.

Lemma GenerateMatchProof_range_irrelevant (it it' : MapRange) (q : EpochQueue)
    (pre : list order.Preimage) (misses : list order.OrderID) :
  distinct_commitments (remove_misses misses (orders q)) →
  GenerateMatchProof Sum256 it q pre misses = GenerateMatchProof Sum256 it' q pre misses.
Proof. intros Hd. by rewrite !GenerateMatchProof_distinct. Qed.

(** The call fails as soon as one remaining order has no supplied
    preimage hashing to its commitment. *)
Lemma GenerateMatchProof_unrevealed (it : MapRange) (q : EpochQueue)
    (pre : list order.Preimage) (misses : list order.OrderID)
    (oid : order.OrderID) (c : order.Commitment) :
  remove_misses misses (orders q) !! oid = Some c →
  c ∉ makeCommitment Sum256 <$> pre →
  ∃ matched remaining, matched < remaining ∧
    (GenerateMatchProof Sum256 it q pre misses).2 =
      (None, None, Some (errUnmatched matched remaining)).
Proof.
  intros Hm Hc. rewrite GenerateMatchProof_unfold. simpl.
  assert (size (match_preimages Sum256 it 0 (remove_misses misses (orders q)) pre ∅)
          < size (remove_misses misses (orders q))) as Hlt.
  { apply (size_match_preimages_unrevealed Sum256 it 0 _ pre oid c); [done|].
    intros p Hp Hpc. destruct Hc. apply list_elem_of_fmap. by exists p. }
  rewrite decide_True by lia. eauto.
Qed.

(** The call succeeds when the remaining commitments are distinct and
    each has a supplied preimage. *)
Lemma GenerateMatchProof_revealed (it : MapRange) (q : EpochQueue)
    (pre : list order.Preimage) (misses : list order.OrderID) :
  distinct_commitments (remove_misses misses (orders q)) →
  map_Forall (λ _ c, c ∈ makeCommitment Sum256 <$> pre) (remove_misses misses (orders q)) →
  (GenerateMatchProof Sum256 it q pre misses).2 =
    derive_proof Sum256 (map_to_list (remove_misses misses (orders q)))
      (omap (revealed_for Sum256 pre) (remove_misses misses (orders q))).
Proof.
  intros Hd Hall. rewrite GenerateMatchProof_distinct by done. simpl.
  rewrite decide_False; [done|]. intros Hne. by apply Hne, size_omap_revealed.
Qed.
End derive.

(** ** Enqueue, Size, Exists and Reset *)

Lemma Exists_true (q : EpochQueue) (oid : order.OrderID) :
  Exists q oid = true ↔ is_Some (orders q !! oid).
Proof. unfold Exists. by rewrite bool_decide_eq_true. Qed.

Lemma Exists_false (q : EpochQueue) (oid : order.OrderID) :
  Exists q oid = false ↔ orders q !! oid = None.
Proof. unfold Exists. by rewrite bool_decide_eq_false, eq_None_not_Some. Qed.

Lemma orders_Enqueue (q : EpochQueue) (note : msgjson.EpochOrderNote) :
  orders (Enqueue q note) = <[note_oid note := note_commit note]> (orders q).
Proof. done. Qed.

(** C6: for a note whose order ID is not yet in the queue, after
    [Enqueue(note)] the ID exists and [Size()] is one more than before; after
    [Reset()], [Size()] is 0 and [Exists] is false for every ID, in particular
    for those present before the reset. *)
Theorem Enqueue_Reset_Size_Exists (q : EpochQueue) (note : msgjson.EpochOrderNote) :
  Exists q (note_oid note) = false →
  Exists (Enqueue q note) (note_oid note) = true ∧
  Size (Enqueue q note) = S (Size q) ∧
  ∀ q0 : EpochQueue,
    Size (Reset q0) = 0 ∧ ∀ oid, Exists q0 oid = true → Exists (Reset q0) oid = false.
Proof.
  intros Hnew%Exists_false. split; [|split].
  - apply Exists_true. rewrite orders_Enqueue, lookup_insert_eq. eauto.
  - unfold Size. rewrite orders_Enqueue. by apply map_size_insert_None.
  - intros q0. split; [apply map_size_empty|].
    intros oid _. apply Exists_false, lookup_empty.
Qed.

(** C7: [Enqueue] raises [Size()] by at most one; when the note's order ID
    is already queued, its commitment is replaced by the note's, [Size()]
    stays, and every other entry is as before. *)
Theorem Enqueue_overwrites (q : EpochQueue) (note : msgjson.EpochOrderNote) :
  Size (Enqueue q note) ≤ S (Size q) ∧
  (Exists q (note_oid note) = true →
     orders (Enqueue q note) !! note_oid note = Some (note_commit note) ∧
     Size (Enqueue q note) = Size q ∧
     ∀ oid, oid ≠ note_oid note → orders (Enqueue q note) !! oid = orders q !! oid).
Proof.
  unfold Size. rewrite orders_Enqueue. split.
  - rewrite map_size_insert. case_match; [apply Nat.le_succ_diag_r | done].
  - intros Hold%Exists_true. split; [apply lookup_insert_eq|]. split.
    + by apply map_size_insert_Some.
    + intros oid Hne. by apply lookup_insert_ne.
Qed.

(** ** GenerateMatchProof: failure, pruning, the empty queue *)

Section proof_claims.
Variable Sum256 : list byte → Array32.

(** The outcome depends on the queue only through the orders that
    remain once the misses are removed. *)
Lemma GenerateMatchProof_remaining (it : MapRange) (q q' : EpochQueue)
    (pre : list order.Preimage) (misses misses' : list order.OrderID) :
  remove_misses misses (orders q) = remove_misses misses' (orders q') →
  GenerateMatchProof Sum256 it q pre misses = GenerateMatchProof Sum256 it q' pre misses'.
Proof. intros E. unfold GenerateMatchProof. by rewrite E. Qed.

Lemma orders_GenerateMatchProof (it : MapRange) (q : EpochQueue)
    (pre : list order.Preimage) (misses : list order.OrderID) :
  orders (GenerateMatchProof Sum256 it q pre misses).1 = remove_misses misses (orders q).
Proof. unfold GenerateMatchProof. by case_decide. Qed.

(** C2: when, after the misses are pruned, some remaining order has no
    supplied preimage whose hash is its commitment, the call returns an
    error, and a nil seed and a nil checksum with it. *)
Theorem GenerateMatchProof_completeness (it : MapRange) (q : EpochQueue)
    (pre : list order.Preimage) (misses : list order.OrderID)
    (oid : order.OrderID) (c : order.Commitment) :
  orders q !! oid = Some c → oid ∉ misses →
  (∀ p, p ∈ pre → makeCommitment Sum256 p ≠ c) →
  let r := (GenerateMatchProof Sum256 it q pre misses).2 in
  proof_seed r = None ∧ proof_csum r = None ∧ is_Some (proof_err r).
Proof.
  intros Hq Hmiss Hpre.
  destruct (GenerateMatchProof_unrevealed Sum256 it q pre misses oid c)
    as (matched & remaining & _ & Hr).
  - by rewrite lookup_remove_misses, decide_False.
  - intros (p & -> & Hp)%list_elem_of_fmap. by apply (Hpre p).
  - simpl. rewrite Hr. by repeat split.
Qed.

(** C5: every (order ID, preimage) pair the matching step admits links a
    supplied preimage to the commitment the queue records for that ID,
    [Hash(preimage) = commitment]; a preimage whose hash is no queued
    commitment is paired with no order.  This holds in every run, the
    successful ones included. *)
Theorem match_preimages_hash_link (it : MapRange) (q : EpochQueue)
    (pre : list order.Preimage) (misses : list order.OrderID)
    (oid : order.OrderID) (p : order.Preimage) :
  let m := orders (GenerateMatchProof Sum256 it q pre misses).1 in
  let orderPreimages := match_preimages Sum256 it 0 m pre ∅ in
  (orderPreimages !! oid = Some p → p ∈ pre ∧ m !! oid = Some (makeCommitment Sum256 p)) ∧
  ((∀ oid' c, orders q !! oid' = Some c → c ≠ makeCommitment Sum256 p) →
     orderPreimages !! oid ≠ Some p).
Proof.
  simpl. rewrite orders_GenerateMatchProof. split.
  - intros [Hp|?]%match_preimages_lookup_Some; [|done]. by rewrite lookup_empty in Hp.
  - intros Hno [Hp|[_ Hm]]%match_preimages_lookup_Some; [by rewrite lookup_empty in Hp|].
    rewrite lookup_remove_misses in Hm. case_decide; [done|]. by apply (Hno oid _ Hm).
Qed.

(** C8: when the call fails the completeness check, the queue it leaves
    behind has nevertheless lost every order listed in [misses]; the
    other orders are as before. *)
Theorem GenerateMatchProof_error_keeps_pruning (it : MapRange) (q : EpochQueue)
    (pre : list order.Preimage) (misses : list order.OrderID) :
  is_Some (proof_err (GenerateMatchProof Sum256 it q pre misses).2) →
  let q' := (GenerateMatchProof Sum256 it q pre misses).1 in
  (∀ oid, oid ∈ misses → Exists q' oid = false) ∧
  (∀ oid, oid ∉ misses → orders q' !! oid = orders q !! oid).
Proof.
  intros _. simpl. split; intros oid Hoid.
  - apply Exists_false. rewrite orders_GenerateMatchProof, lookup_remove_misses.
    by rewrite decide_True.
  - rewrite orders_GenerateMatchProof, lookup_remove_misses. by rewrite decide_False.
Qed.

Lemma remove_misses_insert_miss (misses : list order.OrderID)
    (m : gmap order.OrderID order.Commitment) (oid : order.OrderID) (c : order.Commitment) :
  oid ∈ misses → remove_misses misses (<[oid := c]> m) = remove_misses misses m.
Proof.
  intros Hoid. apply map_eq. intros oid'.
  rewrite !lookup_remove_misses. case_decide as Hin; [done|].
  rewrite lookup_insert_ne; [done|]. by intros ->.
Qed.

Lemma remove_misses_delete_miss (misses : list order.OrderID)
    (m : gmap order.OrderID order.Commitment) (oid : order.OrderID) :
  oid ∈ misses → remove_misses misses (delete oid m) = remove_misses misses m.
Proof.
  intros Hoid. apply map_eq. intros oid'.
  rewrite !lookup_remove_misses. case_decide as Hin; [done|].
  rewrite lookup_delete_ne; [done|]. by intros ->.
Qed.

(** C4 (amended): the orders listed in [misses] take no part in the seed
    or the checksum, whatever commitment the queue holds for them and
    whatever preimages are supplied; the call gives what it gives on the
    queue without the missed orders, with the same preimages and no misses.
    This holds when both calls visit the map in the same order, and
    whatever the orders the two calls visit it in when the commitments that
    remain are pairwise distinct. *)
Theorem GenerateMatchProof_misses_excluded (it : MapRange) (q : EpochQueue)
    (pre : list order.Preimage) (misses : list order.OrderID) :
  GenerateMatchProof Sum256 it q pre misses =
    GenerateMatchProof Sum256 it {| orders := without_misses misses (orders q) |} pre [] ∧
  (∀ oid c, oid ∈ misses →
    GenerateMatchProof Sum256 it {| orders := <[oid := c]> (orders q) |} pre misses =
    GenerateMatchProof Sum256 it q pre misses ∧
    GenerateMatchProof Sum256 it {| orders := delete oid (orders q) |} pre misses =
    GenerateMatchProof Sum256 it q pre misses) ∧
  (distinct_commitments (without_misses misses (orders q)) →
   ∀ it' : MapRange,
     GenerateMatchProof Sum256 it q pre misses =
       GenerateMatchProof Sum256 it' {| orders := without_misses misses (orders q) |} pre [] ∧
     ∀ oid c, oid ∈ misses →
       GenerateMatchProof Sum256 it' {| orders := <[oid := c]> (orders q) |} pre misses =
       GenerateMatchProof Sum256 it q pre misses ∧
       GenerateMatchProof Sum256 it' {| orders := delete oid (orders q) |} pre misses =
       GenerateMatchProof Sum256 it q pre misses).
Proof.
  assert (∀ it' : MapRange,
            GenerateMatchProof Sum256 it' q pre misses =
              GenerateMatchProof Sum256 it'
                {| orders := without_misses misses (orders q) |} pre []) as Hwithout.
  { intros it'. apply GenerateMatchProof_remaining. simpl. apply remove_misses_filter. }
  assert (∀ (it' : MapRange) oid c, oid ∈ misses →
            GenerateMatchProof Sum256 it' {| orders := <[oid := c]> (orders q) |} pre misses =
              GenerateMatchProof Sum256 it' q pre misses ∧
            GenerateMatchProof Sum256 it' {| orders := delete oid (orders q) |} pre misses =
              GenerateMatchProof Sum256 it' q pre misses) as Hmiss.
  { intros it' oid c Hoid. split; apply GenerateMatchProof_remaining; simpl.
    - by apply remove_misses_insert_miss.
    - by apply remove_misses_delete_miss. }
  split; [apply Hwithout|]. split; [apply Hmiss|].
  rewrite <-remove_misses_filter. intros Hd it'.
  pose proof (GenerateMatchProof_range_irrelevant Sum256 it' it q pre misses Hd) as Hit.
  split.
  - rewrite <-Hit. rewrite remove_misses_filter. apply Hwithout.
  - intros oid c Hoid. rewrite <-Hit. by apply Hmiss.
Qed.

(** C10: when no order remains after the misses are pruned, the call
    succeeds and both the seed and the checksum are the hash of the empty
    byte string; so it is on a freshly reset queue with no preimages. *)
Theorem GenerateMatchProof_empty (it : MapRange) (q : EpochQueue)
    (pre : list order.Preimage) (misses : list order.OrderID) :
  without_misses misses (orders q) = ∅ →
  (GenerateMatchProof Sum256 it q pre misses).2 =
    (Some (proj1_sig (Sum256 [])), Some (proj1_sig (Sum256 [])), None) ∧
  (GenerateMatchProof Sum256 it (Reset q) [] []).2 =
    (Some (proj1_sig (Sum256 [])), Some (proj1_sig (Sum256 [])), None).
Proof.
  intros Hempty.
  assert (∀ pre', (GenerateMatchProof Sum256 it {| orders := ∅ |} pre' []).2 =
    (Some (proj1_sig (Sum256 [])), Some (proj1_sig (Sum256 [])), None)) as Hnone.
  { intros pre'. rewrite GenerateMatchProof_unfold. simpl.
    pose proof (size_match_preimages_dom Sum256 it 0 ∅ pre') as Hle.
    rewrite map_size_empty in Hle. rewrite decide_False.
    - by rewrite map_to_list_empty.
    - rewrite map_size_empty. lia. }
  split; [|apply Hnone]. rewrite <-(Hnone pre). f_equal.
  apply GenerateMatchProof_remaining. simpl. by rewrite remove_misses_filter.
Qed.
End proof_claims.

(** ** The concrete scenario: every order revealed, no misses *)

Section scenario.
Variable Sum256 : list byte → Array32.

Implicit Types (os : list (order.OrderID * order.Preimage)).
Implicit Types (pre : list order.Preimage).

Lemma committed_fmap os :
  committed Sum256 os = makeCommitment Sum256 <$> list_to_map os.
Proof. apply list_to_map_fmap. Qed.

Lemma committed_fst os : (prod_map id (makeCommitment Sum256) <$> os).*1 = os.*1.
Proof. rewrite <-list_fmap_compose. by apply Forall_fmap_ext_1, Forall_forall. Qed.

Lemma committed_snd os :
  (prod_map id (makeCommitment Sum256) <$> os).*2 = makeCommitment Sum256 <$> os.*2.
Proof. rewrite <-!list_fmap_compose. by apply Forall_fmap_ext_1, Forall_forall. Qed.

Lemma map_to_list_committed os :
  NoDup os.*1 →
  map_to_list (committed Sum256 os) ≡ₚ prod_map id (makeCommitment Sum256) <$> os.
Proof. intros Hnd. apply map_to_list_to_map. by rewrite committed_fst. Qed.

Lemma distinct_committed os :
  NoDup os.*1 → NoDup (makeCommitment Sum256 <$> os.*2) →
  distinct_commitments (committed Sum256 os).
Proof.
  intros Hnd Hc. unfold distinct_commitments.
  by rewrite map_to_list_committed, committed_snd.
Qed.

Lemma revealed_committed os pre oid p :
  NoDup (makeCommitment Sum256 <$> os.*2) → (∀ p', p' ∈ pre ↔ p' ∈ os.*2) →
  (oid, p) ∈ os → revealed_for Sum256 pre (makeCommitment Sum256 p) = Some p.
Proof.
  intros Hc Hpre Hin.
  assert (p ∈ os.*2) as Hp by (apply list_elem_of_fmap; by exists (oid, p)).
  destruct (revealed_for Sum256 pre (makeCommitment Sum256 p)) as [p'|] eqn:Hr.
  - apply revealed_for_Some in Hr as [Hp'%Hpre E]. f_equal.
    by apply (NoDup_fmap_elem_inj (makeCommitment Sum256) os.*2).
  - apply revealed_for_None in Hr. destruct Hr.
    by apply list_elem_of_fmap_2, Hpre.
Qed.

Lemma omap_revealed_committed os pre :
  NoDup (makeCommitment Sum256 <$> os.*2) → (∀ p', p' ∈ pre ↔ p' ∈ os.*2) →
  omap (revealed_for Sum256 pre) (committed Sum256 os) = list_to_map os.
Proof.
  intros Hc Hpre. apply map_eq. intros oid.
  rewrite lookup_omap, committed_fmap, lookup_fmap.
  destruct (list_to_map os !! oid) as [p|] eqn:Hp; simpl; [|done].
  apply elem_of_list_to_map_2 in Hp. by apply (revealed_committed os pre oid).
Qed.

Lemma sort_by_oid_fst os : (sort_by_oid os).*1 = sort.Slice array_less os.*1.
Proof. unfold sort_by_oid. by rewrite sort_Slice_fmap. Qed.

Lemma sort_by_oid_Permutation os : sort_by_oid os ≡ₚ os.
Proof. apply sort_Slice_Permutation. Qed.

(** The expected results are those [makeMatchProof] computes from the
    preimages and commitments handed to it in sorted order. *)
Lemma makeMatchProof_buffers_concat pre (commits : list order.Commitment) sbuff cbuff :
  length pre = length commits →
  makeMatchProof_buffers pre commits sbuff cbuff =
    (sbuff ++ concat (proj1_sig <$> pre), cbuff ++ concat (proj1_sig <$> commits)).
Proof.
  revert commits sbuff cbuff.
  induction pre as [|p pre IH]; intros [|c commits] sbuff cbuff; csimpl; try done.
  - intros _. by rewrite !app_nil_r.
  - intros [= Hlen]. by rewrite IH, <-!app_assoc.
Qed.

Lemma makeMatchProof_concat pre (commits : list order.Commitment) :
  length pre = length commits →
  makeMatchProof Sum256 pre commits =
    Some (proj1_sig (Sum256 (concat (proj1_sig <$> pre))),
          proj1_sig (Sum256 (concat (proj1_sig <$> commits)))).
Proof.
  intros Hlen. unfold makeMatchProof. rewrite decide_False by (by intros []).
  by rewrite makeMatchProof_buffers_concat.
Qed.

(** C1 (amended): for a queue holding the orders [os], whose commitments
    are the hashes of the supplied preimages and pairwise distinct, and
    with no misses, the seed is the hash of the preimages concatenated by
    ascending order ID, the checksum is the hash of the commitments
    concatenated in their own ascending order, and the error is nil. *)
Theorem GenerateMatchProof_all_revealed (it : MapRange) (q : EpochQueue) os pre :
  NoDup os.*1 →
  orders q = committed Sum256 os →
  NoDup (makeCommitment Sum256 <$> os.*2) →
  (∀ p, p ∈ pre ↔ p ∈ os.*2) →
  (GenerateMatchProof Sum256 it q pre []).2 =
    (Some (proj1_sig (Sum256 (concat (proj1_sig <$> (sort_by_oid os).*2)))),
     Some (proj1_sig (Sum256 (concat (proj1_sig <$>
        sort.Slice array_less (makeCommitment Sum256 <$> os.*2))))),
     None).
Proof.
  intros Hnd Hq Hc Hpre.
  rewrite GenerateMatchProof_revealed; rewrite remove_misses_nil, Hq.
  - rewrite omap_revealed_committed by done. unfold derive_proof.
    rewrite (array_Slice_perm (map_to_list (committed Sum256 os)).*1 os.*1),
      (array_Slice_perm (map_to_list (committed Sum256 os)).*2
         (makeCommitment Sum256 <$> os.*2)).
    + rewrite <-sort_by_oid_fst, seed_buffer_listed, csum_buffer_concat; [done..|].
      intros x. by rewrite sort_by_oid_Permutation.
    + by rewrite map_to_list_committed, committed_snd.
    + by rewrite map_to_list_committed, committed_fst.
  - by apply distinct_committed.
  - intros oid c. rewrite committed_fmap, lookup_fmap.
    intros (p & Hp%elem_of_list_to_map_2 & ->)%fmap_Some.
    apply list_elem_of_fmap_2, Hpre, list_elem_of_fmap. by exists (oid, p).
Qed.
End scenario.

(** ** Enqueue order and surplus preimages *)

Lemma Enqueue_makeEpochOrderNote (q : EpochQueue) (mid : string) (side rate qty : N)
    (oid : order.OrderID) (commitment : order.Commitment) :
  Enqueue q (makeEpochOrderNote mid side oid rate qty commitment) =
    {| orders := <[oid := commitment]> (orders q) |}.
Proof. unfold Enqueue. simpl. by rewrite !array_of_slice_proj. Qed.

Lemma Enqueue_comm (q : EpochQueue) (x y : msgjson.EpochOrderNote) :
  note_oid x ≠ note_oid y → Enqueue (Enqueue q x) y = Enqueue (Enqueue q y) x.
Proof.
  intros Hne. unfold Enqueue. simpl. f_equal. by apply insert_insert_ne.
Qed.

(** Notes with pairwise distinct order IDs build the same queue in
    whatever order they are enqueued. *)
Lemma enqueue_all_perm (q : EpochQueue) (notes1 notes2 : list msgjson.EpochOrderNote) :
  NoDup (note_oid <$> notes1) → notes1 ≡ₚ notes2 →
  enqueue_all q notes1 = enqueue_all q notes2.
Proof.
  intros Hnd Hp. revert q Hnd.
  induction Hp as [|x l l' _ IH|x y l|l l' l'' Hp1 IH1 Hp2 IH2]; intros q Hnd.
  - done.
  - apply IH. by apply NoDup_cons in Hnd as [_ ?].
  - unfold enqueue_all. simpl. f_equal. apply Enqueue_comm.
    apply NoDup_cons in Hnd as [Hy _]. intros E. apply Hy. rewrite E. left.
  - rewrite IH1 by done. apply IH2. by rewrite <-Hp1.
Qed.

Section order_and_surplus.
Variable Sum256 : list byte → Array32.

Lemma lookup_committed (os : list (order.OrderID * order.Preimage))
    (oid : order.OrderID) (c : order.Commitment) :
  committed Sum256 os !! oid = Some c →
  ∃ p, (oid, p) ∈ os ∧ c = makeCommitment Sum256 p.
Proof.
  rewrite committed_fmap, lookup_fmap.
  intros (p & Hp%elem_of_list_to_map_2 & ->)%fmap_Some. eauto.
Qed.

Lemma size_committed (os : list (order.OrderID * order.Preimage)) :
  NoDup os.*1 → size (committed Sum256 os) = length os.
Proof.
  intros Hnd. rewrite <-length_map_to_list.
  by rewrite map_to_list_committed, length_fmap.
Qed.

(** C3 (amended): for notes with pairwise distinct order IDs, enqueueing
    them in either of two permutations and then calling
    [GenerateMatchProof] with the same preimages and misses gives the same
    results (and leaves the same queue); when the commitments that remain
    are pairwise distinct this is so whatever order the two calls visit
    the map in. *)
Theorem GenerateMatchProof_enqueue_order (it : MapRange) (q0 : EpochQueue)
    (notes1 notes2 : list msgjson.EpochOrderNote)
    (pre : list order.Preimage) (misses : list order.OrderID) :
  NoDup (note_oid <$> notes1) → notes1 ≡ₚ notes2 →
  GenerateMatchProof Sum256 it (enqueue_all q0 notes1) pre misses =
    GenerateMatchProof Sum256 it (enqueue_all q0 notes2) pre misses ∧
  (distinct_commitments (without_misses misses (orders (enqueue_all q0 notes1))) →
   ∀ it' : MapRange,
     GenerateMatchProof Sum256 it (enqueue_all q0 notes1) pre misses =
       GenerateMatchProof Sum256 it' (enqueue_all q0 notes2) pre misses).
Proof.
  intros Hnd Hp. rewrite <-(enqueue_all_perm q0 notes1 notes2) by done.
  split; [done|]. rewrite <-remove_misses_filter. intros Hd it'.
  by apply GenerateMatchProof_range_irrelevant.
Qed.

(** C9 (amended): when the commitments of the remaining orders are
    pairwise distinct and each has a supplied preimage, adding further
    preimages, anywhere in the list, whose hashes are no remaining
    commitment changes nothing: the call succeeds and returns the seed
    and checksum (and leaves the queue) it does without them, whatever
    order either call visits the map in. *)
Theorem GenerateMatchProof_surplus (it it' : MapRange) (q : EpochQueue)
    (pre pre' : list order.Preimage) (misses : list order.OrderID) :
  let m := without_misses misses (orders q) in
  distinct_commitments m →
  map_Forall (λ _ c, c ∈ makeCommitment Sum256 <$> pre) m →
  with_surplus (λ x, ∀ oid, m !! oid ≠ Some (makeCommitment Sum256 x)) pre pre' →
  GenerateMatchProof Sum256 it' q pre' misses = GenerateMatchProof Sum256 it q pre misses ∧
  ∃ seed csum,
    (GenerateMatchProof Sum256 it' q pre' misses).2 = (Some seed, Some csum, None).
Proof.
  simpl. rewrite <-remove_misses_filter. intros Hd Hall Hs.
  assert (omap (revealed_for Sum256 pre') (remove_misses misses (orders q)) =
          omap (revealed_for Sum256 pre) (remove_misses misses (orders q))) as Hop.
  { apply map_eq. intros oid. rewrite !lookup_omap.
    destruct (remove_misses misses (orders q) !! oid) as [c|] eqn:Hm; simpl; [|done].
    apply (revealed_for_surplus Sum256 _ pre pre' c Hs).
    intros x Hx Hxc. apply (Hx oid). by rewrite Hm, <-Hxc. }
  assert (GenerateMatchProof Sum256 it' q pre' misses =
          GenerateMatchProof Sum256 it q pre misses) as Heq.
  { rewrite !GenerateMatchProof_distinct by done. simpl. by rewrite Hop. }
  split; [done|]. rewrite Heq, GenerateMatchProof_revealed by done.
  unfold derive_proof. eauto.
Qed.

(** Without any assumption on the commitments, preimages no remaining
    order is committed to may be appended to the list. *)
Lemma GenerateMatchProof_surplus_appended (it : MapRange) (q : EpochQueue)
    (pre extra : list order.Preimage) (misses : list order.OrderID) :
  (∀ p oid, p ∈ extra → remove_misses misses (orders q) !! oid ≠ Some (Sum256 (`p))) →
  GenerateMatchProof Sum256 it q (pre ++ extra) misses =
    GenerateMatchProof Sum256 it q pre misses.
Proof.
  intros Hno. rewrite !GenerateMatchProof_unfold. simpl.
  by rewrite match_preimages_app, match_preimages_surplus.
Qed.
End order_and_surplus.

(** ** Where the claims as first stated fail *)

Lemma match_preimages_canonical_twice (Sum256 : list byte → Array32) (n : nat)
    (m : gmap order.OrderID order.Commitment) (p : order.Preimage)
    (op : gmap order.OrderID order.Preimage) :
  match_preimages Sum256 range_canonical n m [p; p] op =
    match_preimage Sum256 (map_to_list m) p op.
Proof. simpl. apply match_preimage_idemp. Qed.

Lemma NoDup_twin_orders : NoDup twin_orders.*1.
Proof. compute_done. Qed.

(** A queue of twin orders cannot be matched by one preimage. *)
Lemma GenerateMatchProof_twins_one (Sum256 : list byte → Array32) (it : MapRange)
    (pre : list order.Preimage) :
  size (match_preimages Sum256 it 0 (committed Sum256 twin_orders) pre ∅) ≤ 1 →
  is_Some (proof_err (GenerateMatchProof Sum256 it
    {| orders := committed Sum256 twin_orders |} pre []).2).
Proof.
  intros Hle. rewrite GenerateMatchProof_unfold. simpl orders. rewrite remove_misses_nil.
  cbv zeta. pose proof (size_committed Sum256 twin_orders NoDup_twin_orders) as Hsz.
  rewrite decide_True; [by eexists|].
  change (length twin_orders) with 2 in Hsz. lia.
Qed.

(** C1 as first stated fails on two orders committed to the same preimage
    [n1Pimg]: each commitment is the hash of a supplied preimage, yet with
    the preimage supplied once the call returns an error whatever the digest
    and the visiting order, and with the preimage supplied twice it does so
    whenever both inner loops visit the map in the same order. *)
Lemma all_revealed_twins_fail :
  (¬ ∃ (Sum256 : list byte → Array32) (it : MapRange),
       proof_err (GenerateMatchProof Sum256 it
         {| orders := committed Sum256 twin_orders |} [n1Pimg] []).2 = None) ∧
  (¬ ∃ Sum256 : list byte → Array32, ∀ it : MapRange,
       proof_err (GenerateMatchProof Sum256 it
         {| orders := committed Sum256 twin_orders |} [n1Pimg; n1Pimg] []).2 = None).
Proof.
  split.
  - intros (Sum256 & it & Herr).
    destruct (GenerateMatchProof_twins_one Sum256 it [n1Pimg]) as [e He].
    + etrans; [apply size_match_preimages_le|]. by rewrite map_size_empty.
    + by rewrite Herr in He.
  - intros (Sum256 & Herr). specialize (Herr range_canonical).
    destruct (GenerateMatchProof_twins_one Sum256 range_canonical [n1Pimg; n1Pimg]) as [e He].
    + rewrite match_preimages_canonical_twice.
      etrans; [apply size_match_preimage_le|]. by rewrite map_size_empty.
    + by rewrite Herr in He.
Qed.

(** The listing of the twin queue: both orders, in one order or the other. *)
Lemma map_to_list_twins (Sum256 : list byte → Array32) :
  ∃ k1 k2, k1 ≠ k2 ∧
    map_to_list (committed Sum256 twin_orders) =
      [(k1, makeCommitment Sum256 n1Pimg); (k2, makeCommitment Sum256 n1Pimg)].
Proof.
  pose proof (size_committed Sum256 twin_orders NoDup_twin_orders) as Hlen.
  rewrite <-length_map_to_list in Hlen.
  pose proof (NoDup_fst_map_to_list (committed Sum256 twin_orders)) as Hnd.
  assert (∀ k c, (k, c) ∈ map_to_list (committed Sum256 twin_orders) →
                 c = makeCommitment Sum256 n1Pimg) as Hc.
  { intros k c (p & Hp & ->)%elem_of_map_to_list%lookup_committed.
    unfold twin_orders in Hp. rewrite !elem_of_cons, elem_of_nil in Hp.
    by destruct Hp as [[= _ ->]|[[= _ ->]|[]]]. }
  destruct (map_to_list (committed Sum256 twin_orders))
    as [|[k1 c1] [|[k2 c2] [|??]]]; try done.
  exists k1, k2. split.
  - apply NoDup_cons in Hnd as [Hk1 _]. intros ->. apply Hk1. left.
  - rewrite (Hc k1 c1), (Hc k2 c2); [done|right; left|left].
Qed.

(** When the two inner loops visit the twin queue in opposite orders, the
    preimage supplied twice is matched to both orders and the call
    succeeds. *)
Lemma GenerateMatchProof_twins_alternating (Sum256 : list byte → Array32) :
  proof_err (GenerateMatchProof Sum256 range_alternating
    {| orders := committed Sum256 twin_orders |} [n1Pimg; n1Pimg] []).2 = None.
Proof.
  rewrite GenerateMatchProof_unfold. simpl orders. rewrite remove_misses_nil. cbv zeta.
  rewrite decide_False; [done|]. intros Hne. apply Hne.
  rewrite (size_committed Sum256 twin_orders NoDup_twin_orders).
  destruct (map_to_list_twins Sum256) as (k1 & k2 & Hk & Hl).
  cbn [match_preimages range_of range_alternating Nat.odd Nat.even negb].
  rewrite Hl. cbn [reverse rev_append match_preimage]. unfold makeCommitment.
  rewrite !decide_True by done.
  rewrite !map_size_insert_None, map_size_empty; [done|apply lookup_empty|].
  by rewrite lookup_insert_ne, lookup_empty.
Qed.

(** C9 as first stated fails on the twin queue.  First, each of the two
    orders has a supplied preimage hashing to its commitment, [n2Pimg] is
    surplus under every digest that tells it from [n1Pimg], and the call
    with the surplus preimage does not succeed, whatever the visiting
    order.  Second, success without the surplus preimage does not carry
    over: with the inner loops visiting the map in alternating orders the
    call with [n1Pimg] supplied twice succeeds, and with [n2Pimg] put
    between the two it fails. *)
Lemma surplus_twins_fail :
  (¬ ∃ (Sum256 : list byte → Array32) (it : MapRange),
       Sum256 (`n2Pimg) ≠ Sum256 (`n1Pimg) ∧
       proof_err (GenerateMatchProof Sum256 it
         {| orders := committed Sum256 twin_orders |} [n1Pimg; n2Pimg] []).2 = None) ∧
  (¬ ∃ Sum256 : list byte → Array32,
       Sum256 (`n2Pimg) ≠ Sum256 (`n1Pimg) ∧
       ∀ it : MapRange,
         proof_err (GenerateMatchProof Sum256 it
           {| orders := committed Sum256 twin_orders |} [n1Pimg; n1Pimg] []).2 = None →
         proof_err (GenerateMatchProof Sum256 it
           {| orders := committed Sum256 twin_orders |} [n1Pimg; n2Pimg; n1Pimg] []).2 = None).
Proof.
  assert (∀ Sum256 : list byte → Array32, Sum256 (`n2Pimg) ≠ Sum256 (`n1Pimg) →
            ∀ p oid, p ∈ [n2Pimg] →
              committed Sum256 twin_orders !! oid ≠ Some (Sum256 (`p))) as Hsurplus.
  { intros Sum256 Hne x oid ->%list_elem_of_singleton (p & Hp & Hc)%lookup_committed.
    assert (p = n1Pimg) as ->; [|done].
    unfold twin_orders in Hp. rewrite !elem_of_cons, elem_of_nil in Hp.
    by destruct Hp as [[= _ ->]|[[= _ ->]|[]]]. }
  split.
  - intros (Sum256 & it & Hne & Herr).
    rewrite (GenerateMatchProof_surplus_appended Sum256 it _ [n1Pimg] [n2Pimg]) in Herr
      by (simpl orders; rewrite remove_misses_nil; by apply Hsurplus).
    destruct (GenerateMatchProof_twins_one Sum256 it [n1Pimg]) as [e He].
    + etrans; [apply size_match_preimages_le|]. by rewrite map_size_empty.
    + by rewrite Herr in He.
  - intros (Sum256 & Hne & Hcarry).
    specialize (Hcarry range_alternating (GenerateMatchProof_twins_alternating Sum256)).
    destruct (GenerateMatchProof_twins_one Sum256 range_alternating
                [n1Pimg; n2Pimg; n1Pimg]) as [e He].
    + rewrite (match_preimages_app Sum256 _ 0 _ [n1Pimg] [n2Pimg; n1Pimg]).
      rewrite (match_preimages_app Sum256 _ _ _ [n2Pimg] [n1Pimg]).
      rewrite (match_preimages_surplus Sum256 _ _ _ [n2Pimg]) by (by apply Hsurplus).
      cbn [match_preimages range_of range_alternating Nat.odd Nat.even negb length Nat.add].
      rewrite match_preimage_idemp.
      etrans; [apply size_match_preimage_le|]. by rewrite map_size_empty.
    + by rewrite Hcarry in He.
Qed.

(** C3 as first stated fails on two notes for one order ID, the second
    committed to another preimage than the first: the note enqueued last
    wins, so that with the first note's preimage supplied one enqueue order
    ends in an error and the other in a proof; this under every digest that
    tells the two preimages apart and every visiting order. *)
Lemma enqueue_order_same_oid_differs :
  ¬ ∃ (Sum256 : list byte → Array32) (it : MapRange),
      Sum256 (`n1Pimg) ≠ Sum256 (`n2Pimg) ∧
      let first := makeEpochOrderNote "mkt" 1 n1OrderID 1 3 (makeCommitment Sum256 n1Pimg) in
      let again := makeEpochOrderNote "mkt" 1 n1OrderID 1 3 (makeCommitment Sum256 n2Pimg) in
      (GenerateMatchProof Sum256 it (enqueue_all NewEpochQueue [first; again]) [n1Pimg] []).2 =
      (GenerateMatchProof Sum256 it (enqueue_all NewEpochQueue [again; first]) [n1Pimg] []).2.
Proof.
  intros (Sum256 & it & Hne & Heq). cbv zeta in Heq.
  unfold enqueue_all, foldl in Heq. rewrite !Enqueue_makeEpochOrderNote in Heq.
  simpl orders in Heq. rewrite !insert_insert_eq, !insert_empty in Heq.
  destruct (GenerateMatchProof_unrevealed Sum256 it
    {| orders := {[n1OrderID := makeCommitment Sum256 n2Pimg]} |} [n1Pimg] []
    n1OrderID (makeCommitment Sum256 n2Pimg)) as (matched & remaining & _ & Hl).
  { simpl orders. by rewrite remove_misses_nil, lookup_singleton_eq. }
  { intros (p & Hp & ->%list_elem_of_singleton)%list_elem_of_fmap. by destruct Hne. }
  rewrite Hl in Heq. rewrite GenerateMatchProof_revealed in Heq; [done|..];
    simpl orders; rewrite remove_misses_nil.
  - unfold distinct_commitments. rewrite map_to_list_singleton. apply NoDup_singleton.
  - intros oid c [_ <-]%lookup_singleton_Some. left.
Qed.

(** The twin queue with a third order, the miss, taken out of it. *)
Lemma remove_misses_twins_and_miss (Sum256 : list byte → Array32) :
  remove_misses [n3OrderID] (committed Sum256 (twin_orders ++ [(n3OrderID, n3Pimg)])) =
    committed Sum256 twin_orders.
Proof.
  unfold committed, twin_orders, remove_misses. cbn [app fmap list_fmap prod_map id
    list_to_map foldr foldl fst snd curry uncurry].
  rewrite !delete_insert_ne by compute_done.
  rewrite delete_insert_eq. by rewrite delete_empty.
Qed.

(** C4 as first stated fails on the twin queue with a third order that is
    the miss: the call on the queue, and the call on the queue without the
    missed order, need not give the same result, since with [n1Pimg]
    supplied twice the one succeeds when its inner loops visit the map in
    alternating orders and the other fails when they visit it in one order;
    this under every digest. *)
Lemma misses_excluded_twins_differ :
  ¬ ∃ Sum256 : list byte → Array32, ∀ it it' : MapRange,
      GenerateMatchProof Sum256 it
        {| orders := committed Sum256 (twin_orders ++ [(n3OrderID, n3Pimg)]) |}
        [n1Pimg; n1Pimg] [n3OrderID] =
      GenerateMatchProof Sum256 it'
        {| orders := without_misses [n3OrderID]
                       (committed Sum256 (twin_orders ++ [(n3OrderID, n3Pimg)])) |}
        [n1Pimg; n1Pimg] [].
Proof.
  intros (Sum256 & Hsame). specialize (Hsame range_alternating range_canonical).
  rewrite <-remove_misses_filter, remove_misses_twins_and_miss in Hsame.
  rewrite (GenerateMatchProof_remaining Sum256 range_alternating _
             {| orders := committed Sum256 twin_orders |} _ [n3OrderID] []) in Hsame
    by (simpl orders; rewrite remove_misses_nil; apply remove_misses_twins_and_miss).
  apply (f_equal (λ out, proof_err out.2)) in Hsame. cbv beta in Hsame.
  rewrite GenerateMatchProof_twins_alternating in Hsame.
  destruct (GenerateMatchProof_twins_one Sum256 range_canonical [n1Pimg; n1Pimg]) as [e He].
  - rewrite match_preimages_canonical_twice.
    etrans; [apply size_match_preimage_le|]. by rewrite map_size_empty.
  - rewrite He in Hsame. discriminate Hsame.
Qed.

(** ** The theorems at the orders of the test *)

Lemma not_committed_to (Sum256 : list byte → Array32)
    (m : gmap order.OrderID order.Commitment) (x : order.Preimage) :
  makeCommitment Sum256 x ∉ (map_to_list m).*2 →
  ∀ oid, m !! oid ≠ Some (makeCommitment Sum256 x).
Proof.
  intros Hx oid Hm. apply Hx, list_elem_of_fmap.
  exists (oid, makeCommitment Sum256 x). split; [done|]. by apply elem_of_map_to_list.
Qed.

Lemma orders_sample_queue : orders sample_queue = committed sample_Sum256 sample_orders.
Proof.
  unfold sample_queue, enqueue_all, n1, n2, n3. simpl foldl.
  rewrite !Enqueue_makeEpochOrderNote. simpl orders.
  rewrite (insert_insert_ne _ n2OrderID n1OrderID) by compute_done.
  rewrite (insert_insert_ne _ n3OrderID n1OrderID) by compute_done.
  by rewrite (insert_insert_ne _ n3OrderID n2OrderID) by compute_done.
Qed.

(** The scenario of the test: orders a, b, c, all three revealed. *)
Lemma GenerateMatchProof_all_revealed_sample :
  (GenerateMatchProof sample_Sum256 range_alternating sample_queue
     [n3Pimg; n1Pimg; n2Pimg; n1Pimg] []).2 =
    (Some (proj1_sig (sample_Sum256 (concat (proj1_sig <$> (sort_by_oid sample_orders).*2)))),
     Some (proj1_sig (sample_Sum256 (concat (proj1_sig <$>
        sort.Slice array_less (makeCommitment sample_Sum256 <$> sample_orders.*2))))),
     None).
Proof.
  apply (GenerateMatchProof_all_revealed sample_Sum256 range_alternating sample_queue
           sample_orders).
  - compute_done.
  - apply orders_sample_queue.
  - compute_done.
  - intros p. unfold sample_orders. cbn [fmap list_fmap snd].
    rewrite !elem_of_cons, !elem_of_nil. tauto.
Defined.

(** Three orders queued, preimages for two of them. *)
Lemma GenerateMatchProof_completeness_sample :
  let r := (GenerateMatchProof sample_Sum256 range_canonical sample_queue
              [n1Pimg; n2Pimg] []).2 in
  proof_seed r = None ∧ proof_csum r = None ∧ is_Some (proof_err r).
Proof.
  apply (GenerateMatchProof_completeness sample_Sum256 range_canonical sample_queue
           [n1Pimg; n2Pimg] [] n3OrderID (makeCommitment sample_Sum256 n3Pimg)).
  - rewrite orders_sample_queue. vm_compute. reflexivity.
  - apply not_elem_of_nil.
  - apply Forall_forall. compute_done.
Defined.

(** The two enqueue orders of the test, with order b missed. *)
Lemma GenerateMatchProof_enqueue_order_sample :
  GenerateMatchProof sample_Sum256 range_canonical
      (enqueue_all NewEpochQueue [n1; n2; n3]) [n1Pimg; n3Pimg] [n2OrderID] =
    GenerateMatchProof sample_Sum256 range_canonical
      (enqueue_all NewEpochQueue [n3; n1; n2]) [n1Pimg; n3Pimg] [n2OrderID] ∧
  (distinct_commitments
     (without_misses [n2OrderID] (orders (enqueue_all NewEpochQueue [n1; n2; n3]))) →
   ∀ it' : MapRange,
     GenerateMatchProof sample_Sum256 range_canonical
         (enqueue_all NewEpochQueue [n1; n2; n3]) [n1Pimg; n3Pimg] [n2OrderID] =
       GenerateMatchProof sample_Sum256 it'
         (enqueue_all NewEpochQueue [n3; n1; n2]) [n1Pimg; n3Pimg] [n2OrderID]).
Proof.
  apply (GenerateMatchProof_enqueue_order sample_Sum256 range_canonical NewEpochQueue
           [n1; n2; n3] [n3; n1; n2] [n1Pimg; n3Pimg] [n2OrderID]).
  - compute_done.
  - etrans; [apply Permutation_skip, Permutation_swap | apply Permutation_swap].
Defined.

(** The second order of the test enqueued after the first. *)
Lemma Enqueue_Reset_Size_Exists_sample :
  Exists (Enqueue (Enqueue NewEpochQueue n1) n2) (note_oid n2) = true ∧
  Size (Enqueue (Enqueue NewEpochQueue n1) n2) = S (Size (Enqueue NewEpochQueue n1)) ∧
  ∀ q0 : EpochQueue,
    Size (Reset q0) = 0 ∧ ∀ oid, Exists q0 oid = true → Exists (Reset q0) oid = false.
Proof.
  apply (Enqueue_Reset_Size_Exists (Enqueue NewEpochQueue n1) n2).
  vm_compute. reflexivity.
Defined.

(** A failing call that has nevertheless removed the missed order b. *)
Lemma GenerateMatchProof_error_keeps_pruning_sample :
  Exists sample_queue n2OrderID = true ∧
  let q' := (GenerateMatchProof sample_Sum256 range_canonical sample_queue
               [n1Pimg] [n2OrderID]).1 in
  (∀ oid, oid ∈ [n2OrderID] → Exists q' oid = false) ∧
  (∀ oid, oid ∉ [n2OrderID] → orders q' !! oid = orders sample_queue !! oid).
Proof.
  split; [vm_compute; reflexivity|].
  apply (GenerateMatchProof_error_keeps_pruning sample_Sum256 range_canonical sample_queue
           [n1Pimg] [n2OrderID]).
  vm_compute. by eexists.
Defined.

(** Order b missed; its preimage is supplied all the same, twice, and is
    surplus. *)
Lemma GenerateMatchProof_surplus_sample :
  GenerateMatchProof sample_Sum256 range_alternating sample_queue
      [n2Pimg; n1Pimg; n2Pimg; n3Pimg] [n2OrderID] =
    GenerateMatchProof sample_Sum256 range_canonical sample_queue
      [n1Pimg; n3Pimg] [n2OrderID] ∧
  ∃ seed csum,
    (GenerateMatchProof sample_Sum256 range_alternating sample_queue
       [n2Pimg; n1Pimg; n2Pimg; n3Pimg] [n2OrderID]).2 = (Some seed, Some csum, None).
Proof.
  apply (GenerateMatchProof_surplus sample_Sum256 range_canonical range_alternating
           sample_queue [n1Pimg; n3Pimg] [n2Pimg; n1Pimg; n2Pimg; n3Pimg] [n2OrderID]).
  - compute_done.
  - compute_done.
  - assert (∀ oid, without_misses [n2OrderID] (orders sample_queue) !! oid
                   ≠ Some (makeCommitment sample_Sum256 n2Pimg)) as Hsurplus
      by (apply not_committed_to; compute_done).
    apply with_surplus_add; [done|]. apply with_surplus_keep.
    apply with_surplus_add; [done|]. apply with_surplus_keep.
    apply with_surplus_nil.
Defined.

(** All three orders of the test missed. *)
Lemma GenerateMatchProof_empty_sample :
  (GenerateMatchProof sample_Sum256 range_canonical sample_queue
     [n1Pimg] [n1OrderID; n2OrderID; n3OrderID]).2 =
    (Some (proj1_sig (sample_Sum256 [])), Some (proj1_sig (sample_Sum256 [])), None) ∧
  (GenerateMatchProof sample_Sum256 range_canonical (Reset sample_queue) [] []).2 =
    (Some (proj1_sig (sample_Sum256 [])), Some (proj1_sig (sample_Sum256 [])), None).
Proof.
  apply (GenerateMatchProof_empty sample_Sum256 range_canonical sample_queue
           [n1Pimg] [n1OrderID; n2OrderID; n3OrderID]).
  vm_compute. reflexivity.
Defined.

(** Order b listed as a miss although its preimage is supplied: the two
    calls visiting the map in the same order, and in different orders. *)
Lemma GenerateMatchProof_misses_excluded_sample :
  GenerateMatchProof sample_Sum256 range_alternating sample_queue
      [n1Pimg; n2Pimg; n3Pimg] [n2OrderID] =
    GenerateMatchProof sample_Sum256 range_alternating
      {| orders := without_misses [n2OrderID] (orders sample_queue) |}
      [n1Pimg; n2Pimg; n3Pimg] [] ∧
  GenerateMatchProof sample_Sum256 range_alternating sample_queue
      [n1Pimg; n2Pimg; n3Pimg] [n2OrderID] =
    GenerateMatchProof sample_Sum256 range_canonical
      {| orders := without_misses [n2OrderID] (orders sample_queue) |}
      [n1Pimg; n2Pimg; n3Pimg] [].
Proof.
  pose proof (GenerateMatchProof_misses_excluded sample_Sum256 range_alternating
                sample_queue [n1Pimg; n2Pimg; n3Pimg] [n2OrderID]) as (Hsame & _ & Hother).
  split; [exact Hsame|].
  refine (proj1 (Hother _ range_canonical)). compute_done.
Defined.

(** The pair admitted for order b of the test. *)
Lemma match_preimages_hash_link_sample :
  let m := orders (GenerateMatchProof sample_Sum256 range_alternating sample_queue
                     [n3Pimg; n1Pimg; n2Pimg] []).1 in
  n2Pimg ∈ [n3Pimg; n1Pimg; n2Pimg] ∧
  m !! n2OrderID = Some (makeCommitment sample_Sum256 n2Pimg).
Proof.
  cbv zeta.
  apply (proj1 (match_preimages_hash_link sample_Sum256 range_alternating sample_queue
                  [n3Pimg; n1Pimg; n2Pimg] [] n2OrderID n2Pimg)).
  vm_compute. reflexivity.
Defined.

(** The first note of the test sent again with the second note's
    commitment. *)
Lemma Enqueue_overwrites_sample :
  let again := makeEpochOrderNote "mkt" 1 n1OrderID 1 3 (note_commit n2) in
  Exists sample_queue (note_oid again) = true ∧
  orders (Enqueue sample_queue again) !! note_oid again = Some (note_commit again) ∧
  Size (Enqueue sample_queue again) = Size sample_queue ∧
  ∀ oid, oid ≠ note_oid again →
    orders (Enqueue sample_queue again) !! oid = orders sample_queue !! oid.
Proof.
  cbv zeta. split; [vm_compute; reflexivity|].
  apply (proj2 (Enqueue_overwrites sample_queue
                  (makeEpochOrderNote "mkt" 1 n1OrderID 1 3 (note_commit n2)))).
  vm_compute. reflexivity.
Defined.

(** * Further properties of the queue *)

(** ** What Enqueue records *)

Lemma proj1_array_of_slice (src : list byte) :
  proj1_sig (array_of_slice src) = take HashSize (src ++ replicate HashSize x00).
Proof.
  unfold array_of_slice, copy, zero32. cbn [proj1_sig].
  rewrite length_replicate, drop_replicate, take_app, take_replicate.
  do 2 f_equal. unfold HashSize. lia.
Qed.

Lemma array_of_slice_eq (src src' : list byte) :
  take HashSize (src ++ replicate HashSize x00) =
    take HashSize (src' ++ replicate HashSize x00) →
  array_of_slice src = array_of_slice src'.
Proof. intros E. apply (sig_eq_pi _). by rewrite !proj1_array_of_slice. Qed.

(** X1: [Enqueue] keys an order by the first 32 bytes of the note's order
    ID, padded with zero bytes when the slice is shorter; a note whose order
    ID is the same once cut or padded to 32 bytes replaces the earlier
    note's entry. *)
Theorem Enqueue_cut_and_padded (q : EpochQueue) (note note' : msgjson.EpochOrderNote) :
  take HashSize (msgjson.OrderID note ++ replicate HashSize x00) =
    take HashSize (msgjson.OrderID note' ++ replicate HashSize x00) →
  orders (Enqueue q note) !! note_oid note' = Some (note_commit note) ∧
  Enqueue (Enqueue q note) note' = Enqueue q note'.
Proof.
  intros E%array_of_slice_eq. fold (note_oid note) (note_oid note') in E.
  rewrite !orders_Enqueue. split.
  - rewrite <-E. apply lookup_insert_eq.
  - unfold Enqueue. cbn [orders]. fold (note_oid note) (note_oid note').
    by rewrite E, insert_insert_eq.
Qed.

(** X2: after a sequence of [Enqueue] calls, the commitment recorded for an
    order ID is that of the last note carrying the ID; an ID no note carries
    keeps the entry it had. *)
Theorem enqueue_all_last_write_wins (q : EpochQueue)
    (notes : list msgjson.EpochOrderNote) (oid : order.OrderID) :
  orders (enqueue_all q notes) !! oid =
    match last (filter (λ note, note_oid note = oid) notes) with
    | Some note => Some (note_commit note)
    | None => orders q !! oid
    end.
Proof.
  induction notes as [|note notes IH] using rev_ind; [done|].
  unfold enqueue_all in *. rewrite foldl_app. cbn [foldl].
  rewrite orders_Enqueue, filter_app, last_app, filter_cons, filter_nil.
  destruct (decide (note_oid note = oid)) as [->|Hne]; cbn [last].
  - apply lookup_insert_eq.
  - by rewrite lookup_insert_ne.
Qed.

Lemma dom_enqueue_all (q : EpochQueue) (notes : list msgjson.EpochOrderNote) :
  dom (orders (enqueue_all q notes)) =
    dom (orders q) ∪ list_to_set (C:=gset order.OrderID) (note_oid <$> notes).
Proof.
  revert q. induction notes as [|note notes IH]; intros q.
  - cbn. by rewrite union_empty_r_L.
  - change (enqueue_all q (note :: notes)) with (enqueue_all (Enqueue q note) notes).
    rewrite IH, orders_Enqueue, dom_insert_L. csimpl.
    by rewrite (comm_L (∪) {[note_oid note]}), !(assoc_L (∪)).
Qed.

Lemma length_remove_dups_le {A : Type} `{EqDecision A} (l : list A) :
  length (remove_dups l) ≤ length l.
Proof. induction l as [|x l IH]; simpl; [done|]. case_decide; simpl; lia. Qed.

(** X3: a queue filled from empty holds one entry per distinct order ID:
    [Size()] is the number of distinct IDs among the notes, never more than
    the number of notes. *)
Theorem Size_enqueue_all (notes : list msgjson.EpochOrderNote) :
  Size (enqueue_all NewEpochQueue notes) = length (remove_dups (note_oid <$> notes)) ∧
  Size (enqueue_all NewEpochQueue notes) ≤ length notes.
Proof.
  assert (Size (enqueue_all NewEpochQueue notes) =
          length (remove_dups (note_oid <$> notes))) as ->.
  { unfold Size. rewrite <-size_dom, dom_enqueue_all. cbn [NewEpochQueue orders].
    rewrite dom_empty_L, union_empty_l_L.
    rewrite <-(size_list_to_set (C:=gset order.OrderID)) by apply NoDup_remove_dups.
    f_equal. apply set_eq. intros oid.
    by rewrite !elem_of_list_to_set, elem_of_remove_dups. }
  split; [done|]. etrans; [apply length_remove_dups_le|]. by rewrite length_fmap.
Qed.

(** ** What GenerateMatchProof does to the queue and returns *)

Lemma remove_misses_app (misses1 misses2 : list order.OrderID)
    (m : gmap order.OrderID order.Commitment) :
  remove_misses (misses1 ++ misses2) m = remove_misses misses2 (remove_misses misses1 m).
Proof. unfold remove_misses. apply foldl_app. Qed.

Lemma dom_remove_misses (misses : list order.OrderID)
    (m : gmap order.OrderID order.Commitment) :
  dom (remove_misses misses m) = dom m ∖ list_to_set misses.
Proof.
  apply set_eq. intros oid.
  rewrite elem_of_difference, !elem_of_dom, lookup_remove_misses, elem_of_list_to_set.
  case_decide; [|tauto]. split; [by intros [??]|tauto].
Qed.

Section more_proof_properties.
Variable Sum256 : list byte → Array32.

(** X4: whether it succeeds or fails, [GenerateMatchProof] leaves the queue
    with exactly the orders not listed as misses, their commitments
    untouched; [Size()] drops by the number of queued orders among the
    misses and the queue is not emptied by a successful call. *)
Theorem GenerateMatchProof_only_removes (it : MapRange) (q : EpochQueue)
    (pre : list order.Preimage) (misses : list order.OrderID) :
  let q' := (GenerateMatchProof Sum256 it q pre misses).1 in
  (∀ oid, orders q' !! oid = if decide (oid ∈ misses) then None else orders q !! oid) ∧
  Size q' = Size q - size (dom (orders q) ∩ list_to_set (C:=gset order.OrderID) misses).
Proof.
  cbv zeta. rewrite orders_GenerateMatchProof. split.
  - intros oid. apply lookup_remove_misses.
  - unfold Size. rewrite orders_GenerateMatchProof, <-!size_dom, dom_remove_misses.
    apply size_difference_alt.
Qed.

Lemma remove_misses_same_queued (q : EpochQueue) (misses misses' : list order.OrderID) :
  (∀ oid, Exists q oid = true → (oid ∈ misses ↔ oid ∈ misses')) →
  remove_misses misses (orders q) = remove_misses misses' (orders q).
Proof.
  intros Hsame. apply map_eq. intros oid.
  rewrite !lookup_remove_misses.
  destruct (orders q !! oid) as [c|] eqn:Hq; [|by repeat case_decide].
  assert (Exists q oid = true) as Hex%Hsame by (apply Exists_true; eauto).
  repeat case_decide; tauto.
Qed.

Lemma EpochQueue_eq (q q' : EpochQueue) : orders q = orders q' → q = q'.
Proof. destruct q, q'. simpl. by intros ->. Qed.

(** X5: a miss that is not queued, or listed more than once, changes
    nothing: the outcome depends on the misses only through which queued
    orders they name.  Two calls whose misses name the same queued orders
    leave the same queue, whatever order each visits the map in; they
    return the same results when they visit it in the same order, and
    whatever order each visits it in when the commitments that remain are
    pairwise distinct. *)
Theorem GenerateMatchProof_misses_as_set (it it' : MapRange) (q : EpochQueue)
    (pre : list order.Preimage) (misses misses' : list order.OrderID) :
  (∀ oid, Exists q oid = true → (oid ∈ misses ↔ oid ∈ misses')) →
  GenerateMatchProof Sum256 it q pre misses = GenerateMatchProof Sum256 it q pre misses' ∧
  (GenerateMatchProof Sum256 it q pre misses).1 =
    (GenerateMatchProof Sum256 it' q pre misses').1 ∧
  (distinct_commitments (without_misses misses (orders q)) →
   GenerateMatchProof Sum256 it q pre misses = GenerateMatchProof Sum256 it' q pre misses').
Proof.
  intros Hsame%remove_misses_same_queued. split; [|split].
  - by apply GenerateMatchProof_remaining.
  - apply EpochQueue_eq. by rewrite !orders_GenerateMatchProof.
  - rewrite <-remove_misses_filter. intros Hd.
    rewrite (GenerateMatchProof_range_irrelevant Sum256 it it' q pre misses Hd).
    by apply GenerateMatchProof_remaining.
Qed.

(** X6: misses add up over calls: calling [GenerateMatchProof] on the queue
    an earlier call left behind, with further misses, leaves the queue that
    one call with both lists of misses leaves, whatever order each call
    visits the map in; it returns the results of that one call when the two
    visit the map in the same order, and whatever order each visits it in
    when the commitments that remain are pairwise distinct. *)
Theorem GenerateMatchProof_misses_accumulate (it it0 it' : MapRange) (q : EpochQueue)
    (pre0 pre : list order.Preimage) (misses1 misses2 : list order.OrderID) :
  GenerateMatchProof Sum256 it (GenerateMatchProof Sum256 it0 q pre0 misses1).1 pre misses2 =
    GenerateMatchProof Sum256 it q pre (misses1 ++ misses2) ∧
  (GenerateMatchProof Sum256 it (GenerateMatchProof Sum256 it0 q pre0 misses1).1
     pre misses2).1 =
    (GenerateMatchProof Sum256 it' q pre (misses1 ++ misses2)).1 ∧
  (distinct_commitments (without_misses (misses1 ++ misses2) (orders q)) →
   GenerateMatchProof Sum256 it (GenerateMatchProof Sum256 it0 q pre0 misses1).1 pre misses2 =
     GenerateMatchProof Sum256 it' q pre (misses1 ++ misses2)).
Proof.
  assert (remove_misses misses2 (orders (GenerateMatchProof Sum256 it0 q pre0 misses1).1) =
            remove_misses (misses1 ++ misses2) (orders q)) as Hrem.
  { by rewrite orders_GenerateMatchProof, remove_misses_app. }
  split; [|split].
  - by apply GenerateMatchProof_remaining.
  - apply EpochQueue_eq. etrans; [apply orders_GenerateMatchProof|].
    rewrite Hrem. symmetry. apply orders_GenerateMatchProof.
  - rewrite <-remove_misses_filter. intros Hd.
    rewrite <-(GenerateMatchProof_range_irrelevant Sum256 it it' q pre (misses1 ++ misses2) Hd).
    by apply GenerateMatchProof_remaining.
Qed.

(** X7: when the commitments of the remaining orders are pairwise
    distinct, the call succeeds exactly when every remaining commitment is
    the hash of some supplied preimage. *)
Theorem GenerateMatchProof_succeeds_iff (it : MapRange) (q : EpochQueue)
    (pre : list order.Preimage) (misses : list order.OrderID) :
  distinct_commitments (without_misses misses (orders q)) →
  proof_err (GenerateMatchProof Sum256 it q pre misses).2 = None ↔
  map_Forall (λ _ c, c ∈ makeCommitment Sum256 <$> pre) (without_misses misses (orders q)).
Proof.
  rewrite <-remove_misses_filter. intros Hd. split.
  - intros Herr.
    destruct (decide (map_Forall (λ _ c, c ∈ makeCommitment Sum256 <$> pre)
                        (remove_misses misses (orders q)))) as [|Hnot]; [done|].
    apply map_not_Forall in Hnot as (oid & c & Hm & Hc); [|apply _].
    destruct (GenerateMatchProof_unrevealed Sum256 it q pre misses oid c Hm Hc)
      as (matched & remaining & _ & Hr).
    by rewrite Hr in Herr.
  - intros Hall. by rewrite GenerateMatchProof_revealed.
Qed.

(** X8: the call returns either a seed and a checksum of 32 bytes each with
    a nil error, or no seed, no checksum and an error whose first count (the
    orders matched) is below its second (the orders left in the queue). *)
Theorem GenerateMatchProof_result_shape (it : MapRange) (q : EpochQueue)
    (pre : list order.Preimage) (misses : list order.OrderID) :
  let out := GenerateMatchProof Sum256 it q pre misses in
  (∃ seed csum, out.2 = (Some seed, Some csum, None) ∧
     length seed = HashSize ∧ length csum = HashSize) ∨
  (∃ matched remaining, out.2 = (None, None, Some (errUnmatched matched remaining)) ∧
     matched < remaining ∧ remaining = Size out.1).
Proof.
  cbv zeta. rewrite GenerateMatchProof_unfold. cbn [fst snd]. case_decide as Hsz.
  - right. eexists _, _. split; [done|]. split; [|done].
    pose proof (size_match_preimages_dom Sum256 it 0
                  (remove_misses misses (orders q)) pre). lia.
  - left. unfold derive_proof. eexists _, _. split; [done|].
    split; exact (proj2_sig (Sum256 _)).
Qed.

(** X9: the checksum is a fingerprint of the remaining commitments alone:
    two successful calls, on whatever queues, whose remaining orders carry
    the same commitments return the same checksum, the hash of those
    commitments concatenated in ascending order. *)
Theorem checksum_of_remaining_commitments (it1 it2 : MapRange) (q1 q2 : EpochQueue)
    (pre1 pre2 : list order.Preimage) (misses1 misses2 : list order.OrderID) :
  (map_to_list (without_misses misses1 (orders q1))).*2 ≡ₚ
    (map_to_list (without_misses misses2 (orders q2))).*2 →
  proof_err (GenerateMatchProof Sum256 it1 q1 pre1 misses1).2 = None →
  proof_err (GenerateMatchProof Sum256 it2 q2 pre2 misses2).2 = None →
  proof_csum (GenerateMatchProof Sum256 it1 q1 pre1 misses1).2 =
    proof_csum (GenerateMatchProof Sum256 it2 q2 pre2 misses2).2 ∧
  proof_csum (GenerateMatchProof Sum256 it1 q1 pre1 misses1).2 =
    Some (proj1_sig (Sum256 (concat (proj1_sig <$> sort.Slice array_less
            (map_to_list (without_misses misses1 (orders q1))).*2)))).
Proof.
  rewrite <-!remove_misses_filter, !GenerateMatchProof_unfold. cbn [fst snd].
  intros Hp. repeat case_decide; try done. intros _ _.
  unfold derive_proof, proof_csum. cbn [fst snd].
  rewrite (array_Slice_perm _ _ Hp), csum_buffer_concat. done.
Qed.

Lemma revealed_for_set (pre pre' : list order.Preimage) (c : order.Commitment) :
  (∀ p p', p ∈ pre → p' ∈ pre →
     makeCommitment Sum256 p = makeCommitment Sum256 p' → p = p') →
  (∀ p, p ∈ pre ↔ p ∈ pre') →
  revealed_for Sum256 pre' c = revealed_for Sum256 pre c.
Proof.
  intros Hinj Hset.
  destruct (revealed_for Sum256 pre c) as [p|] eqn:Hr.
  - apply revealed_for_Some in Hr as [Hp Hc].
    destruct (revealed_for Sum256 pre' c) as [p'|] eqn:Hr'.
    + apply revealed_for_Some in Hr' as [Hp'%Hset Hc']. f_equal.
      apply Hinj; [done..|]. unfold makeCommitment. congruence.
    + apply revealed_for_None in Hr'. destruct Hr'.
      subst c. by apply (list_elem_of_fmap_2 (makeCommitment Sum256)), Hset.
  - apply revealed_for_None in Hr. apply revealed_for_None.
    intros (p & -> & Hp%Hset)%list_elem_of_fmap. apply Hr.
    by apply list_elem_of_fmap_2.
Qed.

(** X10: when the remaining commitments are pairwise distinct and no two
    different supplied preimages share a hash, the outcome depends only
    on which preimages are supplied, not on their order in the list or on
    how often each occurs. *)
Theorem GenerateMatchProof_preimages_as_set (it it' : MapRange) (q : EpochQueue)
    (pre pre' : list order.Preimage) (misses : list order.OrderID) :
  distinct_commitments (without_misses misses (orders q)) →
  (∀ p p', p ∈ pre → p' ∈ pre →
     makeCommitment Sum256 p = makeCommitment Sum256 p' → p = p') →
  (∀ p, p ∈ pre ↔ p ∈ pre') →
  GenerateMatchProof Sum256 it q pre misses = GenerateMatchProof Sum256 it' q pre' misses.
Proof.
  rewrite <-remove_misses_filter. intros Hd Hinj Hset.
  rewrite !GenerateMatchProof_distinct by done. cbv zeta.
  assert (omap (revealed_for Sum256 pre') (remove_misses misses (orders q)) =
          omap (revealed_for Sum256 pre) (remove_misses misses (orders q))) as ->; [|done].
  apply map_eq. intros oid. rewrite !lookup_omap.
  destruct (remove_misses misses (orders q) !! oid) as [c|]; [|done].
  by apply revealed_for_set.
Qed.

(** The scenario of C1 once more, for use below. *)
Lemma GenerateMatchProof_committed (it : MapRange) (q : EpochQueue)
    (os : list (order.OrderID * order.Preimage)) (pre : list order.Preimage) :
  NoDup os.*1 →
  orders q = committed Sum256 os →
  NoDup (makeCommitment Sum256 <$> os.*2) →
  (∀ p, p ∈ pre ↔ p ∈ os.*2) →
  (GenerateMatchProof Sum256 it q pre []).2 =
    (Some (proj1_sig (Sum256 (concat (proj1_sig <$> (sort_by_oid os).*2)))),
     Some (proj1_sig (Sum256 (concat (proj1_sig <$>
        sort.Slice array_less (makeCommitment Sum256 <$> os.*2))))),
     None).
Proof.
  intros Hnd Hq Hc Hpre.
  rewrite GenerateMatchProof_revealed; rewrite remove_misses_nil, Hq.
  - rewrite omap_revealed_committed by done. unfold derive_proof.
    rewrite (array_Slice_perm (map_to_list (committed Sum256 os)).*1 os.*1),
      (array_Slice_perm (map_to_list (committed Sum256 os)).*2
         (makeCommitment Sum256 <$> os.*2)).
    + rewrite <-sort_by_oid_fst, seed_buffer_listed, csum_buffer_concat; [done..|].
      intros x. by rewrite sort_by_oid_Permutation.
    + by rewrite map_to_list_committed, committed_snd.
    + by rewrite map_to_list_committed, committed_fst.
  - by apply distinct_committed.
  - intros oid c [p [Hp ->]]%lookup_committed.
    apply list_elem_of_fmap_2, Hpre, list_elem_of_fmap. by exists (oid, p).
Qed.

(** X11: the test's [makeMatchProof], handed the preimages in ascending
    order of their order IDs and the commitments in their own ascending
    order, returns the seed and checksum [GenerateMatchProof] returns for a
    queue of those orders with distinct commitments. *)
Theorem makeMatchProof_agrees (it : MapRange) (q : EpochQueue)
    (os : list (order.OrderID * order.Preimage)) (pre : list order.Preimage) :
  NoDup os.*1 →
  orders q = committed Sum256 os →
  NoDup (makeCommitment Sum256 <$> os.*2) →
  (∀ p, p ∈ pre ↔ p ∈ os.*2) →
  ∃ seed csum,
    (GenerateMatchProof Sum256 it q pre []).2 = (Some seed, Some csum, None) ∧
    makeMatchProof Sum256 (sort_by_oid os).*2
      (sort.Slice array_less (makeCommitment Sum256 <$> os.*2)) = Some (seed, csum).
Proof.
  intros Hnd Hq Hc Hpre. eexists _, _. split.
  - by apply GenerateMatchProof_committed.
  - apply makeMatchProof_concat.
    by rewrite sort_Slice_length, !length_fmap, sort_by_oid_Permutation.
Qed.
End more_proof_properties.

(** ** The further properties at the orders of the test *)

Lemma Enqueue_cut_and_padded_sample :
  orders (Enqueue NewEpochQueue n1) !! note_oid short_note = Some (note_commit n1) ∧
  Enqueue (Enqueue NewEpochQueue n1) short_note = Enqueue NewEpochQueue short_note.
Proof.
  apply (Enqueue_cut_and_padded NewEpochQueue n1 short_note).
  vm_compute. reflexivity.
Defined.

(** Order b missed twice, together with an order ID that is not queued;
    the second call visits the map in another order. *)
Lemma GenerateMatchProof_misses_as_set_sample :
  GenerateMatchProof sample_Sum256 range_canonical sample_queue [n1Pimg; n3Pimg]
      [n2OrderID; zero32; n2OrderID] =
    GenerateMatchProof sample_Sum256 range_alternating sample_queue [n1Pimg; n3Pimg]
      [n2OrderID].
Proof.
  refine (proj2 (proj2 (GenerateMatchProof_misses_as_set sample_Sum256 range_canonical
           range_alternating sample_queue
           [n1Pimg; n3Pimg] [n2OrderID; zero32; n2OrderID] [n2OrderID] _)) _).
  - intros oid Hex. rewrite !elem_of_cons, elem_of_nil.
    split; [|tauto]. intros [?|[->|[?|[]]]]; [tauto| |tauto].
    vm_compute in Hex. discriminate Hex.
  - compute_done.
Defined.

(** Order b missed in a first call, order c in a second one that visits the
    map in another order than the single call. *)
Lemma GenerateMatchProof_misses_accumulate_sample :
  GenerateMatchProof sample_Sum256 range_canonical
      (GenerateMatchProof sample_Sum256 range_canonical sample_queue [] [n2OrderID]).1
      [n1Pimg] [n3OrderID] =
    GenerateMatchProof sample_Sum256 range_alternating sample_queue [n1Pimg]
      ([n2OrderID] ++ [n3OrderID]).
Proof.
  refine (proj2 (proj2 (GenerateMatchProof_misses_accumulate sample_Sum256 range_canonical
           range_canonical range_alternating sample_queue [] [n1Pimg]
           [n2OrderID] [n3OrderID])) _).
  compute_done.
Defined.

Lemma GenerateMatchProof_succeeds_iff_sample :
  proof_err (GenerateMatchProof sample_Sum256 range_alternating sample_queue
               [n1Pimg; n3Pimg] [n2OrderID]).2 = None ↔
  map_Forall (λ _ c, c ∈ makeCommitment sample_Sum256 <$> [n1Pimg; n3Pimg])
    (without_misses [n2OrderID] (orders sample_queue)).
Proof.
  apply (GenerateMatchProof_succeeds_iff sample_Sum256 range_alternating sample_queue
           [n1Pimg; n3Pimg] [n2OrderID]).
  compute_done.
Defined.

Lemma without_no_misses (m : gmap order.OrderID order.Commitment) :
  without_misses [] m = m.
Proof. by rewrite <-remove_misses_filter. Qed.

(** The queue of the test and a queue of other order IDs with the same
    three commitments. *)
Lemma checksum_of_remaining_commitments_sample :
  proof_csum (GenerateMatchProof sample_Sum256 range_canonical sample_queue
                [n1Pimg; n2Pimg; n3Pimg] []).2 =
    proof_csum (GenerateMatchProof sample_Sum256 range_alternating
                  {| orders := committed sample_Sum256 swapped_orders |}
                  [n3Pimg; n2Pimg; n1Pimg] []).2 ∧
  proof_csum (GenerateMatchProof sample_Sum256 range_canonical sample_queue
                [n1Pimg; n2Pimg; n3Pimg] []).2 =
    Some (proj1_sig (sample_Sum256 (concat (proj1_sig <$> sort.Slice array_less
            (map_to_list (without_misses [] (orders sample_queue))).*2)))).
Proof.
  apply (checksum_of_remaining_commitments sample_Sum256 range_canonical range_alternating
           sample_queue {| orders := committed sample_Sum256 swapped_orders |}
           [n1Pimg; n2Pimg; n3Pimg] [n3Pimg; n2Pimg; n1Pimg] [] []).
  - rewrite !without_no_misses, orders_sample_queue. cbn [orders].
    rewrite !map_to_list_committed, !committed_snd by compute_done. done.
  - vm_compute. reflexivity.
  - vm_compute. reflexivity.
Defined.

Lemma sample_preimages_distinct (p p' : order.Preimage) :
  p ∈ [n1Pimg; n2Pimg; n3Pimg] → p' ∈ [n1Pimg; n2Pimg; n3Pimg] →
  makeCommitment sample_Sum256 p = makeCommitment sample_Sum256 p' → p = p'.
Proof. apply NoDup_fmap_elem_inj. compute_done. Qed.

(** The three preimages of the test in another order, one of them twice. *)
Lemma GenerateMatchProof_preimages_as_set_sample :
  GenerateMatchProof sample_Sum256 range_canonical sample_queue
      [n1Pimg; n2Pimg; n3Pimg] [] =
    GenerateMatchProof sample_Sum256 range_alternating sample_queue
      [n3Pimg; n3Pimg; n2Pimg; n1Pimg] [].
Proof.
  apply (GenerateMatchProof_preimages_as_set sample_Sum256 range_canonical
           range_alternating sample_queue [n1Pimg; n2Pimg; n3Pimg]
           [n3Pimg; n3Pimg; n2Pimg; n1Pimg] []).
  - compute_done.
  - apply sample_preimages_distinct.
  - intros p. rewrite !elem_of_cons, !elem_of_nil. tauto.
Defined.

Lemma makeMatchProof_agrees_sample :
  ∃ seed csum,
    (GenerateMatchProof sample_Sum256 range_canonical sample_queue
       [n1Pimg; n2Pimg; n3Pimg] []).2 = (Some seed, Some csum, None) ∧
    makeMatchProof sample_Sum256 (sort_by_oid sample_orders).*2
      (sort.Slice array_less (makeCommitment sample_Sum256 <$> sample_orders.*2)) =
      Some (seed, csum).
Proof.
  apply (makeMatchProof_agrees sample_Sum256 range_canonical sample_queue sample_orders
           [n1Pimg; n2Pimg; n3Pimg]).
  - compute_done.
  - apply orders_sample_queue.
  - compute_done.
  - done.
Defined.

(** * Properties of the v2 upgrade statistics *)

Section pg_properties.
Import pg.
Local Open Scope Z_scope.

Lemma scan_rows_inr (rows : list scan_result) (rates quantities : list Z)
    (sell : list bool) (rates' quantities' : list Z) (sell' : list bool) :
  scan_rows rows rates quantities sell = inr (rates', quantities', sell') →
  ∃ rs qs ss,
    rates' = rates ++ rs ∧ quantities' = quantities ++ qs ∧ sell' = sell ++ ss ∧
    length rs = length qs ∧ length ss = length qs ∧
    rows = row_of <$> zip (zip qs rs) ss.
Proof.
  revert rates quantities sell.
  induction rows as [|[quantity rate takerSell|err] rows IH];
    intros rates quantities sell; cbn [scan_rows]; [| |done].
  - intros [= <- <- <-]. exists [], [], []. by rewrite !app_nil_r.
  - intros (rs & qs & ss & -> & -> & -> & Hr & Hs & ->)%IH.
    exists (rate :: rs), (quantity :: qs), (takerSell :: ss).
    rewrite <-!app_assoc. cbn [length]. by rewrite Hr, Hs.
Qed.

Lemma matchStatsForMarketEpoch_lengths (query : query_result)
    (rates quantities : list Z) (sell : list bool) (err : option string) :
  matchStatsForMarketEpoch query = (rates, quantities, sell, err) →
  length rates = length quantities ∧ length sell = length quantities.
Proof.
  unfold matchStatsForMarketEpoch. destruct query as [e|rows rowsErr].
  { by intros [= <- <- <- <-]. }
  destruct (scan_rows rows [] [] []) as [e|[[rs qs] ss]] eqn:Hscan.
  { by intros [= <- <- <- <-]. }
  destruct rowsErr as [e|]; intros [= <- <- <- <-]; [done|].
  by apply scan_rows_inr in Hscan as (rs' & qs' & ss' & -> & -> & -> & Hr & Hs & _).
Qed.

(** X12: [matchStatsForMarketEpoch] returns three slices of one length,
    row [i] of the query in [quantities[i]], [rates[i]] and [sell[i]]; with
    an error, from the query, a scan or the row iteration, all three are
    nil. *)
Theorem matchStatsForMarketEpoch_columns (query : query_result)
    (rates quantities : list Z) (sell : list bool) (err : option string) :
  matchStatsForMarketEpoch query = (rates, quantities, sell, err) →
  length rates = length quantities ∧ length sell = length quantities ∧
  match err with
  | Some _ => rates = [] ∧ quantities = [] ∧ sell = []
  | None => query = QueryRows (row_of <$> zip (zip quantities rates) sell) None
  end.
Proof.
  unfold matchStatsForMarketEpoch. destruct query as [e|rows rowsErr].
  { by intros [= <- <- <- <-]. }
  destruct (scan_rows rows [] [] []) as [e|[[rs qs] ss]] eqn:Hscan.
  { by intros [= <- <- <- <-]. }
  destruct rowsErr as [e|]; intros [= <- <- <- <-]; [done|].
  apply scan_rows_inr in Hscan as (rs' & qs' & ss' & -> & -> & -> & Hr & Hs & ->).
  done.
Qed.

Section stats.
Variable BaseToQuote : Z → Z → Z.

Lemma volume_loop_Some (rates quantities : list Z) (i : nat) (mv qv hi lo : Z) :
  length (drop i rates) = length quantities →
  ∃ mv' qv' hi' lo',
    volume_loop BaseToQuote i quantities rates mv qv hi lo = Some (mv', qv', hi', lo') ∧
    u64 mv' = u64 (mv + foldr Z.add 0 quantities) ∧
    (mv' = mv ∧ quantities = [] ∨ mv' = u64 mv') ∧
    hi ≤ hi' ∧ Forall (λ r, r ≤ hi') (drop i rates) ∧ (hi' = hi ∨ hi' ∈ drop i rates) ∧
    lo' ≤ lo ∧ Forall (λ r, lo' ≤ r) (drop i rates) ∧ (lo' = lo ∨ lo' ∈ drop i rates).
Proof.
  revert i mv qv hi lo.
  induction quantities as [|qty quantities IH]; intros i mv qv hi lo Hlen.
  - apply nil_length_inv in Hlen. rewrite Hlen. cbn.
    exists mv, qv, hi, lo. rewrite Z.add_0_r. repeat split; auto; lia.
  - destruct (rates !! i) as [rate|] eqn:Hi; cycle 1.
    { apply lookup_ge_None in Hi. by rewrite drop_ge in Hlen. }
    rewrite (drop_S _ _ _ Hi) in Hlen |- *. cbn [length] in Hlen.
    cbn [volume_loop]. rewrite Hi.
    destruct (IH (S i) (u64 (mv + qty)) (u64 (qv + BaseToQuote rate qty))
                (if hi <? rate then rate else hi) (if rate <? lo then rate else lo))
      as (mv' & qv' & hi' & lo' & -> & Hmv & Hmv' & Hhi & Hhis & Hhi' & Hlo & Hlos & Hlo');
      [lia|].
    exists mv', qv', hi', lo'. split; [done|]. repeat split.
    + rewrite Hmv. cbn [foldr]. unfold u64.
      rewrite Zplus_mod_idemp_l. f_equal. lia.
    + right. destruct Hmv' as [[-> _]|?]; [|done]. unfold u64. by rewrite Zmod_mod.
    + destruct (Z.ltb_spec hi rate); lia.
    + constructor; [destruct (Z.ltb_spec hi rate); lia | done].
    + destruct Hhi' as [->|?]; [|by right; right].
      destruct (Z.ltb_spec hi rate); [right; left | by left].
    + destruct (Z.ltb_spec rate lo); lia.
    + constructor; [destruct (Z.ltb_spec rate lo); lia | done].
    + destruct Hlo' as [->|?]; [|by right; right].
      destruct (Z.ltb_spec rate lo); [right; left | by left].
Qed.

Lemma epoch_turn_not_Panicked (dur : Z) (st : totals) (e : epoch_io) :
  epoch_turn BaseToQuote dur st e ≠ TurnPanicked.
Proof.
  unfold epoch_turn.
  destruct (matchStatsForMarketEpoch (e_query e)) as [[[rates quantities] sell] err] eqn:Hq.
  apply matchStatsForMarketEpoch_lengths in Hq as [Hlen _].
  destruct err; [done|]. case_decide; [by destruct (e_exec e)|].
  destruct (volume_loop_Some rates quantities 0 0 0 0 MaxInt64)
    as (mv & qv & hi & lo & -> & _); [done|].
  by destruct (e_exec e).
Qed.

(** X13: the index [rates[i]] of the volume loop is never out of range:
    whatever the database returns, the epoch loop ends by running through
    or by returning an error, never by a panic. *)
Theorem epoch_loop_never_panics (dur : Z) (st : totals) (es : list epoch_io) :
  (epoch_loop BaseToQuote dur st es).2 ≠ Panicked.
Proof.
  revert st. induction es as [|e es IH]; intros st; cbn [epoch_loop]; [done|].
  pose proof (epoch_turn_not_Panicked dur st e) as Hturn.
  destruct (epoch_turn BaseToQuote dur st e) as [r st'| |]; try done.
  specialize (IH st'). by destruct (epoch_loop BaseToQuote dur st' es).
Qed.

(** X14: for an epoch with matches whose rates all lie in
    [[0, math.MaxInt64]], the report carries the highest and the lowest of
    the rates, an end rate between the two, and as match volume the sum of
    the quantities modulo 2^64; the end rate is carried to the next
    epoch. *)
Theorem epoch_turn_rates (dur : Z) (st : totals) (e : epoch_io)
    (rates quantities : list Z) (sell : list bool) :
  matchStatsForMarketEpoch (e_query e) = (rates, quantities, sell, None) →
  e_exec e = None →
  rates ≠ [] →
  Forall (λ rate, 0 ≤ rate ≤ MaxInt64) rates →
  ∃ r st',
    epoch_turn BaseToQuote dur st e = TurnDone r st' ∧
    r_highRate r ∈ rates ∧ r_lowRate r ∈ rates ∧
    Forall (λ rate, r_lowRate r ≤ rate ≤ r_highRate r) rates ∧
    r_lowRate r ≤ r_endRate r ≤ r_highRate r ∧
    r_matchVolume r = u64 (foldr Z.add 0 quantities) ∧
    endRate st' = r_endRate r.
Proof.
  intros Hq Hexec Hne Hrange. unfold epoch_turn. rewrite Hq, Hexec.
  apply matchStatsForMarketEpoch_lengths in Hq as [Hlen _].
  rewrite decide_False by (by destruct rates).
  destruct (volume_loop_Some rates quantities 0 0 0 0 MaxInt64)
    as (mv & qv & hi & lo & -> & Hmv & Hmv' & Hhi & Hhis & Hhi' & Hlo & Hlos & Hlo');
    [done|].
  cbn [drop] in *. eexists _, _. split; [done|]. cbn.
  assert (hi ∈ rates) as Hhin.
  { destruct Hhi' as [->|?]; [|done]. destruct rates as [|rate rates]; [done|].
    apply Forall_cons in Hhis as [??], Hrange as [??].
    replace 0 with rate by lia. left. }
  assert (lo ∈ rates) as Hlin.
  { destruct Hlo' as [->|?]; [|done]. destruct rates as [|rate rates]; [done|].
    apply Forall_cons in Hlos as [??], Hrange as [??].
    replace MaxInt64 with rate by lia. left. }
  pose proof (proj1 (Forall_forall _ _) Hrange _ Hhin) as Hhr.
  pose proof (proj1 (Forall_forall _ _) Hrange _ Hlin) as Hlr.
  pose proof (proj1 (Forall_forall _ _) Hhis _ Hlin) as Hlh.
  cbv beta in Hhr, Hlr, Hlh.
  repeat split; try done.
  - apply Forall_forall. intros rate Hrate.
    pose proof (proj1 (Forall_forall _ _) Hhis _ Hrate).
    pose proof (proj1 (Forall_forall _ _) Hlos _ Hrate). cbv beta in *. lia.
  - unfold u64, MaxInt64 in *. rewrite Z.mod_small by lia.
    apply Z.div_le_lower_bound; lia.
  - unfold u64, MaxInt64 in *. rewrite Z.mod_small by lia.
    apply Z.div_le_upper_bound; lia.
  - destruct Hmv' as [[_ ->]|Hmv'']; [by destruct rates|].
    rewrite Hmv'', Hmv. by rewrite Z.add_0_l.
Qed.

Lemma epoch_turn_Done (dur : Z) (st st' : totals) (e : epoch_io) (r : report) :
  epoch_turn BaseToQuote dur st e = TurnDone r st' →
    if decide (epoch_rates e = []) then
      st' = st ∧ r_startRate r = startRate st ∧ r_endRate r = startRate st ∧
      r_matchVolume r = 0 ∧ r_quoteVolume r = 0 ∧ r_highRate r = 0 ∧ r_lowRate r = 0
    else
      startRate st' = r_startRate r ∧ endRate st' = r_endRate r ∧
      r_startRate r = (if decide (startRate st = 0) then r_endRate r else endRate st).
Proof.
  unfold epoch_turn, epoch_rates.
  destruct (matchStatsForMarketEpoch (e_query e)) as [[[rates quantities] sell] err].
  cbn [fst snd]. destruct err; [done|].
  destruct (decide (length rates = 0%nat)) as [Hlen|Hlen].
  - apply nil_length_inv in Hlen as ->. rewrite decide_True by done.
    destruct (e_exec e); [done|]. by intros [= <- <-].
  - rewrite decide_False by (by intros ->).
    destruct (volume_loop BaseToQuote 0 quantities rates 0 0 0 MaxInt64)
      as [[[[mv qv] hi] lo]|]; [|done].
    destruct (e_exec e); [done|]. by intros [= <- <-].
Qed.

Lemma epoch_loop_app (dur : Z) (st : totals) (es1 es2 : list epoch_io) :
  epoch_loop BaseToQuote dur st (es1 ++ es2) =
    match epoch_loop BaseToQuote dur st es1 with
    | (rs1, Finished st1) =>
        let '(rs2, fin) := epoch_loop BaseToQuote dur st1 es2 in (rs1 ++ rs2, fin)
    | (rs1, fin) => (rs1, fin)
    end.
Proof.
  revert st. induction es1 as [|e es1 IH]; intros st; cbn [app epoch_loop].
  - by destruct (epoch_loop BaseToQuote dur st es2).
  - destruct (epoch_turn BaseToQuote dur st e) as [r st'| |]; try done.
    rewrite IH. destruct (epoch_loop BaseToQuote dur st' es1) as [rs1 [st1| |]]; try done.
    by destruct (epoch_loop BaseToQuote dur st1 es2).
Qed.

(** Epochs without matches leave the carried variables alone and each
    report the carried start rate twice. *)
Lemma epoch_loop_empty_epochs (dur : Z) (st st' : totals) (es : list epoch_io)
    (rs : list report) :
  Forall (λ e, epoch_rates e = []) es →
  epoch_loop BaseToQuote dur st es = (rs, Finished st') →
  st' = st ∧ length rs = length es ∧
  Forall (λ r, r_startRate r = startRate st ∧ r_endRate r = startRate st ∧
               r_matchVolume r = 0 ∧ r_quoteVolume r = 0 ∧
               r_highRate r = 0 ∧ r_lowRate r = 0) rs.
Proof.
  intros Hes. revert rs. induction Hes as [|e es He _ IH]; intros rs; cbn [epoch_loop].
  - by intros [= <- <-].
  - destruct (epoch_turn BaseToQuote dur st e) as [r st1| |] eqn:Hturn; [|done..].
    apply epoch_turn_Done in Hturn as Hr.
    rewrite decide_True in Hr by done. destruct Hr as (-> & Hr).
    destruct (epoch_loop BaseToQuote dur st es) as [rs' fin] eqn:Hloop.
    intros [= <- ->]. destruct (IH rs' eq_refl) as (-> & Hlen & Hrs).
    split; [done|]. split; [cbn; by rewrite Hlen|]. by constructor.
Qed.

(** X15: between two epochs with matches the epochs without matches each
    report zero volumes and rates, with the earlier epoch's start rate as
    both start and end rate; the later epoch starts at the earlier one's
    end rate, unless the earlier one's start rate is 0, when it starts at
    its own end rate. *)
Theorem epoch_loop_rate_chain (dur : Z) (st st' : totals) (e1 e2 : epoch_io)
    (empties : list epoch_io) (reports : list report) :
  epoch_rates e1 ≠ [] → Forall (λ e, epoch_rates e = []) empties → epoch_rates e2 ≠ [] →
  epoch_loop BaseToQuote dur st (e1 :: empties ++ [e2]) = (reports, Finished st') →
  ∃ r1 rs r2,
    reports = r1 :: rs ++ [r2] ∧ length rs = length empties ∧
    Forall (λ r, r_startRate r = r_startRate r1 ∧ r_endRate r = r_startRate r1 ∧
                 r_matchVolume r = 0 ∧ r_quoteVolume r = 0 ∧
                 r_highRate r = 0 ∧ r_lowRate r = 0) rs ∧
    r_startRate r2 = (if decide (r_startRate r1 = 0) then r_endRate r2 else r_endRate r1).
Proof.
  intros He1 Hempties He2. cbn [epoch_loop].
  destruct (epoch_turn BaseToQuote dur st e1) as [r1 st1| |] eqn:Hturn1; [|done..].
  apply epoch_turn_Done in Hturn1 as Hr1.
  rewrite decide_False in Hr1 by done. destruct Hr1 as (Hs1 & He1' & _).
  rewrite epoch_loop_app.
  destruct (epoch_loop BaseToQuote dur st1 empties) as [rs [st2| |]] eqn:Hloop;
    [|done..].
  apply epoch_loop_empty_epochs in Hloop as (-> & Hlen & Hrs); [|done].
  cbn [epoch_loop].
  destruct (epoch_turn BaseToQuote dur st1 e2) as [r2 st3| |] eqn:Hturn2; [|done..].
  apply epoch_turn_Done in Hturn2 as Hr2.
  rewrite decide_False in Hr2 by done. destruct Hr2 as (_ & _ & Hs2).
  intros [= <- <-]. exists r1, rs, r2. rewrite Hs1, He1' in *. done.
Qed.
End stats.
End pg_properties.

(** ** The statistics at the sample epochs *)

Lemma matchStatsForMarketEpoch_columns_sample :
  length [2000000; 2100000]%Z = length [300000000; 100000000]%Z ∧
  length [true; false] = length [300000000; 100000000]%Z ∧
  pg.e_query two_matches =
    pg.QueryRows (row_of <$> zip (zip [300000000; 100000000]%Z [2000000; 2100000]%Z)
                                 [true; false]) None.
Proof.
  apply (matchStatsForMarketEpoch_columns (pg.e_query two_matches)
           [2000000; 2100000]%Z [300000000; 100000000]%Z [true; false] None).
  reflexivity.
Defined.

Lemma epoch_turn_rates_sample :
  ∃ r st',
    pg.epoch_turn sample_BaseToQuote 10000 carried two_matches = pg.TurnDone r st' ∧
    pg.r_highRate r ∈ [2000000; 2100000]%Z ∧ pg.r_lowRate r ∈ [2000000; 2100000]%Z ∧
    Forall (λ rate, pg.r_lowRate r ≤ rate ≤ pg.r_highRate r)%Z [2000000; 2100000]%Z ∧
    (pg.r_lowRate r ≤ pg.r_endRate r ≤ pg.r_highRate r)%Z ∧
    pg.r_matchVolume r = pg.u64 (foldr Z.add 0 [300000000; 100000000])%Z ∧
    pg.endRate st' = pg.r_endRate r.
Proof.
  apply (epoch_turn_rates sample_BaseToQuote 10000 carried two_matches
           [2000000; 2100000]%Z [300000000; 100000000]%Z [true; false]).
  - reflexivity.
  - reflexivity.
  - discriminate.
  - repeat constructor; (unfold pg.MaxInt64; lia).
Defined.

Lemma epoch_loop_rate_chain_sample :
  ∃ r1 rs r2,
    (pg.epoch_loop sample_BaseToQuote 10000 carried
       (two_matches :: [no_matches 11; no_matches 12] ++ [one_match])).1 =
      r1 :: rs ++ [r2] ∧
    length rs = length [no_matches 11; no_matches 12] ∧
    Forall (λ r, pg.r_startRate r = pg.r_startRate r1 ∧ pg.r_endRate r = pg.r_startRate r1 ∧
                 pg.r_matchVolume r = 0%Z ∧ pg.r_quoteVolume r = 0%Z ∧
                 pg.r_highRate r = 0%Z ∧ pg.r_lowRate r = 0%Z) rs ∧
    pg.r_startRate r2 =
      (if decide (pg.r_startRate r1 = 0%Z) then pg.r_endRate r2 else pg.r_endRate r1).
Proof.
  apply (epoch_loop_rate_chain sample_BaseToQuote 10000 carried
           (pg.Totals 2050000 1900000 5 1500000000 29600000)
           two_matches one_match [no_matches 11; no_matches 12]).
  - discriminate.
  - by repeat constructor.
  - discriminate.
  - vm_compute. reflexivity.
Defined.

(** * Properties of upgradeDB *)

Section upgradeDB_properties.
Import pg.
Variable DB : Type.
Variable tableExists columnExists : DB → string + bool.
Variable selectDBVersion : DB → string + N.
Variable execSetDBVersion : DB → N → DB * (string + (string + Z)).
Variable v1Upgrade v2Upgrade : DB → DB * option string.

Lemma run_upgrades_steps (db db' : DB) (current : N) (i : nat)
    (ups : list (DB → DB * option string)) (steps : list step)
    (err : option upgrade_error) :
  run_upgrades DB execSetDBVersion db current i ups = (db', steps, err) →
  steps `prefix_of` steps_of current i (length ups) ∧
  (err = None → steps = steps_of current i (length ups)).
Proof.
  revert db i steps. induction ups as [|up ups IH]; intros db i steps; cbn [run_upgrades].
  - by intros [= <- <- <-].
  - cbn [length seq steps_of flat_map app]. fold (steps_of current (S i) (length ups)).
    destruct (up db) as [db1 [e|]].
    { intros [= <- <- <-]. split; [apply prefix_nil|done]. }
    destruct (setDBVersion DB execSetDBVersion db1 (current + N.of_nat i + 1))
      as [db2 [e|]].
    { intros [= <- <- <-]. split; [|done]. by apply prefix_cons, prefix_nil. }
    destruct (run_upgrades DB execSetDBVersion db2 current (S i) ups)
      as [[db3 steps'] err'] eqn:Hrun.
    intros [= <- <- <-]. apply IH in Hrun as [Hpre Hall]. split.
    + by do 2 apply prefix_cons.
    + intros ->. by rewrite Hall.
Qed.

Lemma steps_of_upgrades (current : N) :
  (current < dbVersion)%N →
  steps_of current 0 (length (drop (N.to_nat current) (upgrades DB v1Upgrade v2Upgrade))) =
    steps_from current.
Proof.
  unfold dbVersion. intros Hlt.
  assert (current = 0 ∨ current = 1)%N as [->| ->] by lia; reflexivity.
Qed.

Lemma upgradeDB_steps_listed (db db' : DB) (current : N) (steps : list step)
    (err : option upgrade_error) :
  current_version DB tableExists columnExists selectDBVersion db = inr current →
  upgradeDB DB tableExists columnExists selectDBVersion execSetDBVersion
    v1Upgrade v2Upgrade db = (db', steps, err) →
  steps `prefix_of` steps_from current ∧
  (err = None → steps = steps_from current) ∧
  ((dbVersion ≤ current)%N → db' = db ∧ steps = []) ∧
  ((dbVersion < current)%N → err = Some (ErrNewer current)).
Proof.
  intros Hcur. unfold upgradeDB. rewrite Hcur.
  destruct (decide (current = dbVersion)) as [->|Hne].
  { intros [= <- <- <-]. split; [done|]. split; [done|].
    split; [done|]. unfold dbVersion. lia. }
  destruct (decide (dbVersion < current)%N) as [Hgt|Hle].
  { assert (steps_from current = []) as ->.
    { unfold steps_from, dbVersion in *. rewrite drop_ge; [done|]. cbn [length]. lia. }
    by intros [= <- <- <-]. }
  assert (current < dbVersion)%N as Hlt by lia.
  destruct (run_upgrades DB execSetDBVersion db current 0
              (drop (N.to_nat current) (upgrades DB v1Upgrade v2Upgrade)))
    as [[db1 steps1] err1] eqn:Hrun.
  apply run_upgrades_steps in Hrun as [Hpre Hall].
  rewrite steps_of_upgrades in Hpre, Hall by done.
  destruct err1 as [e|].
  - intros [= <- <- <-]. split; [done|]. split; [done|]. split; intros ?; lia.
  - destruct (DBVersion DB selectDBVersion db1) as [ver [e|]]; intros [= <- <- <-];
      (split; [done|]); (split; [by auto|]); split; intros ?; lia.
Qed.

(** What the steps stand for: the database before the failing call, or
    the one returned, is the one the steps lead to when upgrade [k] is the
    upgrade to version [k]; the failing call is the next step due. *)
Lemma upgradeDB_replay (db db' : DB) (current : N) (steps : list step)
    (err : option upgrade_error) :
  current_version DB tableExists columnExists selectDBVersion db = inr current →
  upgradeDB DB tableExists columnExists selectDBVersion execSetDBVersion
    v1Upgrade v2Upgrade db = (db', steps, err) →
  ∃ db0, replay DB execSetDBVersion v1Upgrade v2Upgrade steps db = Some db0 ∧
    match err with
    | Some (ErrUpgrade k e) =>
        steps ++ [Upgraded k] `prefix_of` steps_from current ∧
        upgrade_to DB v1Upgrade v2Upgrade k db0 = (db', Some e)
    | Some (ErrSetVersion k e) =>
        steps ++ [VersionSet k] `prefix_of` steps_from current ∧
        setDBVersion DB execSetDBVersion db0 k = (db', Some e)
    | _ => db' = db0
    end.
Proof.
  intros Hcur. unfold upgradeDB. rewrite Hcur.
  destruct (decide (current = dbVersion)) as [->|Hne].
  { intros [= <- <- <-]. by exists db. }
  destruct (decide (dbVersion < current)%N) as [Hgt|Hle].
  { intros [= <- <- <-]. by exists db. }
  unfold dbVersion in *.
  assert (current = 0 ∨ current = 1)%N as [->| ->] by lia.
  - change (drop (N.to_nat 0) (upgrades DB v1Upgrade v2Upgrade))
      with [v1Upgrade; v2Upgrade].
    cbn [run_upgrades].
    change (0 + N.of_nat 0 + 1)%N with 1%N. change (0 + N.of_nat 1 + 1)%N with 2%N.
    destruct (v1Upgrade db) as [db1 [e|]] eqn:Hv1.
    { intros [= <- <- <-]. exists db. split; [done|]. split; [by eexists|done]. }
    destruct (setDBVersion DB execSetDBVersion db1 1) as [db2 [e|]] eqn:Hs1.
    { intros [= <- <- <-]. exists db1. cbn [replay upgrade_to]. rewrite Hv1.
      split; [done|]. split; [by eexists|done]. }
    destruct (v2Upgrade db2) as [db3 [e|]] eqn:Hv2.
    { intros [= <- <- <-]. exists db2. cbn [replay upgrade_to]. rewrite Hv1, Hs1.
      split; [done|]. split; [by eexists|done]. }
    destruct (setDBVersion DB execSetDBVersion db3 2) as [db4 [e|]] eqn:Hs2.
    { intros [= <- <- <-]. exists db3. cbn [replay upgrade_to]. rewrite Hv1, Hs1, Hv2.
      split; [done|]. split; [by eexists|done]. }
    destruct (DBVersion DB selectDBVersion db4) as [ver [e|]]; intros [= <- <- <-];
      exists db4; cbn [replay upgrade_to]; by rewrite Hv1, Hs1, Hv2, Hs2.
  - change (drop (N.to_nat 1) (upgrades DB v1Upgrade v2Upgrade)) with [v2Upgrade].
    cbn [run_upgrades]. change (1 + N.of_nat 0 + 1)%N with 2%N.
    destruct (v2Upgrade db) as [db3 [e|]] eqn:Hv2.
    { intros [= <- <- <-]. exists db. split; [done|]. split; [by eexists|done]. }
    destruct (setDBVersion DB execSetDBVersion db3 2) as [db4 [e|]] eqn:Hs2.
    { intros [= <- <- <-]. exists db3. cbn [replay upgrade_to]. rewrite Hv2.
      split; [done|]. split; [by eexists|done]. }
    destruct (DBVersion DB selectDBVersion db4) as [ver [e|]]; intros [= <- <- <-];
      exists db4; cbn [replay upgrade_to]; by rewrite Hv2, Hs2.
Qed.

(** X16: [upgradeDB] carries out the upgrades above the version it finds,
    in increasing order, recording each version right after its upgrade; it
    stops at the first failure, returns nil only after the whole sequence,
    and touches nothing when the version found is [dbVersion] or above, the
    latter being an error.  The upgrade carried out for version 1 is
    [v1Upgrade] and the one for version 2 is [v2Upgrade]: the database
    returned is the one these calls and the [setDBVersion] calls lead to
    from the database given, and when an upgrade or a [setDBVersion] fails,
    it is the call due next, made on the database the earlier calls led to,
    that returned the error. *)
Theorem upgradeDB_steps (db db' : DB) (current : N) (steps : list step)
    (err : option upgrade_error) :
  current_version DB tableExists columnExists selectDBVersion db = inr current →
  upgradeDB DB tableExists columnExists selectDBVersion execSetDBVersion
    v1Upgrade v2Upgrade db = (db', steps, err) →
  steps `prefix_of` steps_from current ∧
  (err = None → steps = steps_from current) ∧
  ((dbVersion ≤ current)%N → db' = db ∧ steps = []) ∧
  ((dbVersion < current)%N → err = Some (ErrNewer current)) ∧
  ∃ db0, replay DB execSetDBVersion v1Upgrade v2Upgrade steps db = Some db0 ∧
    match err with
    | Some (ErrUpgrade k e) =>
        steps ++ [Upgraded k] `prefix_of` steps_from current ∧
        upgrade_to DB v1Upgrade v2Upgrade k db0 = (db', Some e)
    | Some (ErrSetVersion k e) =>
        steps ++ [VersionSet k] `prefix_of` steps_from current ∧
        setDBVersion DB execSetDBVersion db0 k = (db', Some e)
    | _ => db' = db0
    end.
Proof.
  intros Hcur Hup.
  destruct (upgradeDB_steps_listed db db' current steps err Hcur Hup)
    as (Hpre & Hall & Hready & Hnewer).
  pose proof (upgradeDB_replay db db' current steps err Hcur Hup) as Hreplay.
  split; [exact Hpre|]. split; [exact Hall|]. split; [exact Hready|].
  split; [exact Hnewer|]. exact Hreplay.
Qed.

Lemma setDBVersion_None (db db' : DB) (ver : N) :
  setDBVersion DB execSetDBVersion db ver = (db', None) →
  execSetDBVersion db ver = (db', inr (inr 1%Z)).
Proof.
  unfold setDBVersion. destruct (execSetDBVersion db ver) as [db1 [e|[e|n]]]; [done..|].
  case_decide as Hn; [done|]. intros [= <-]. do 3 f_equal.
  by destruct (decide (n = 1%Z)).
Qed.

Lemma run_upgrades_last (db db' : DB) (current : N) (i : nat)
    (ups : list (DB → DB * option string)) (steps : list step) :
  ups ≠ [] →
  run_upgrades DB execSetDBVersion db current i ups = (db', steps, None) →
  ∃ db0, execSetDBVersion db0 (current + N.of_nat (i + length ups))%N =
           (db', inr (inr 1%Z)).
Proof.
  revert db i steps. induction ups as [|up ups IH]; intros db i steps Hne; [done|].
  cbn [run_upgrades]. destruct (up db) as [db1 [e|]]; [done|].
  destruct (setDBVersion DB execSetDBVersion db1 (current + N.of_nat i + 1))
    as [db2 [e|]] eqn:Hset; [done|].
  destruct (run_upgrades DB execSetDBVersion db2 current (S i) ups)
    as [[db3 steps'] err'] eqn:Hrun.
  intros [= <- <- ->]. destruct ups as [|up' ups].
  - cbn in Hrun. injection Hrun as <- _. exists db1.
    apply setDBVersion_None in Hset. rewrite <-Hset. f_equal. cbn [length]. lia.
  - destruct (IH db2 (S i) steps') as [db0 Hdb0]; [done..|].
    exists db0. rewrite <-Hdb0. f_equal. cbn [length]. lia.
Qed.

(** X17: provided the version statement, when it affects one row, stores
    the version the version query then reads, a call of [upgradeDB] that
    returns nil leaves the database at version [dbVersion]. *)
Theorem upgradeDB_reaches_dbVersion (db db' : DB) (steps : list step) :
  (∀ db0 ver db1, execSetDBVersion db0 ver = (db1, inr (inr 1%Z)) →
                  selectDBVersion db1 = inr ver) →
  upgradeDB DB tableExists columnExists selectDBVersion execSetDBVersion
    v1Upgrade v2Upgrade db = (db', steps, None) →
  DBVersion DB selectDBVersion db' = (dbVersion, None).
Proof.
  intros Hstored. unfold upgradeDB.
  destruct (current_version DB tableExists columnExists selectDBVersion db)
    as [e|current] eqn:Hcur; [done|].
  destruct (decide (current = dbVersion)) as [->|Hne].
  { intros [= <- _]. unfold current_version in Hcur.
    destruct (tableExists db) as [?|[|]]; [done| |done].
    destruct (columnExists db) as [?|[|]]; [done| |done].
    destruct (DBVersion DB selectDBVersion db) as [ver [?|]]; [done|]. by injection Hcur as ->. }
  destruct (decide (dbVersion < current)%N) as [Hgt|Hle]; [done|].
  destruct (run_upgrades DB execSetDBVersion db current 0
              (drop (N.to_nat current) (upgrades DB v1Upgrade v2Upgrade)))
    as [[db1 steps1] [e|]] eqn:Hrun; [done|].
  apply run_upgrades_last in Hrun as [db0 Hset]; cycle 1.
  { unfold dbVersion in *.
    assert (current = 0 ∨ current = 1)%N as [->| ->] by lia; done. }
  apply Hstored in Hset.
  assert (current + N.of_nat (0 + length (drop (N.to_nat current)
            (upgrades DB v1Upgrade v2Upgrade))) = dbVersion)%N as Hver.
  { unfold dbVersion in *.
    assert (current = 0 ∨ current = 1)%N as [->| ->] by lia; reflexivity. }
  rewrite Hver in Hset. unfold DBVersion. rewrite Hset.
  intros [= <- _]. by rewrite Hset.
Qed.
End upgradeDB_properties.

(** ** upgradeDB at the sample databases *)

Lemma upgradeDB_steps_sample :
  [pg.Upgraded 2; pg.VersionSet 2] `prefix_of` pg.steps_from 1 ∧
  (@None pg.upgrade_error = None → [pg.Upgraded 2; pg.VersionSet 2] = pg.steps_from 1) ∧
  ((pg.dbVersion ≤ 1)%N →
     Store (Some 2%N) true = Store (Some 1%N) false ∧
     [pg.Upgraded 2; pg.VersionSet 2] = []) ∧
  ((pg.dbVersion < 1)%N → @None pg.upgrade_error = Some (pg.ErrNewer 1)) ∧
  ∃ db0, replay sample_store store_execSetDBVersion store_v1Upgrade store_v2Upgrade
           [pg.Upgraded 2; pg.VersionSet 2] (Store (Some 1%N) false) = Some db0 ∧
         Store (Some 2%N) true = db0.
Proof.
  apply (upgradeDB_steps sample_store store_tableExists store_columnExists
           store_selectDBVersion store_execSetDBVersion store_v1Upgrade
           store_v2Upgrade (Store (Some 1%N) false) (Store (Some 2%N) true) 1%N
           [pg.Upgraded 2; pg.VersionSet 2] None).
  - reflexivity.
  - vm_compute. reflexivity.
Defined.

Lemma upgradeDB_reaches_dbVersion_sample :
  pg.DBVersion sample_DB sample_selectDBVersion (Some 2%N) = (pg.dbVersion, None).
Proof.
  apply (upgradeDB_reaches_dbVersion sample_DB sample_tableExists sample_columnExists
           sample_selectDBVersion sample_execSetDBVersion sample_v1Upgrade
           sample_v2Upgrade (Some 1%N) (Some 2%N) [pg.Upgraded 2; pg.VersionSet 2]).
  - intros [v|] ver db1; cbn; [|discriminate]. by intros [= <-].
  - vm_compute. reflexivity.
Defined.

(** * Properties of the fee check *)

Section fee_check.
Import auth.
Local Open Scope Z_scope.

(** Every way through the check, by cases on what the calls return. *)
Ltac fee_cases f c :=
  unfold check_fee, send_msgErr;
  destruct (checkErr f) as [?|] eqn:?;
  repeat case_decide;
  destruct (payErr c), (signErr c), (resultRespErr c), (errorRespErr c);
  cbn [fst snd length filter list_filter];
  rewrite ?elem_of_cons, ?elem_of_nil, ?is_Some_alt in *;
  intuition (try congruence; try lia).

(** X18: the fee check calls [storage.PayAccount] exactly when
    [auth.checkFee] returned no error, at least [feeConfs] confirmations, a
    value of at least [regFee] and the account's registration address; it
    asks to be tried again exactly when the fee lookup failed or has too
    few confirmations, and then it neither pays nor answers. *)
Theorem check_fee_pays_iff (regFee feeConfs : Z) (regAddr : string) (f : fee) (c : calls) :
  (PayAccount ∈ (check_fee regFee feeConfs regAddr f c).2 ↔
     checkErr f = None ∧ feeConfs ≤ confs f ∧ regFee ≤ val f ∧ addr f = regAddr) ∧
  ((check_fee regFee feeConfs regAddr f c).1 = TryAgain ↔
     is_Some (checkErr f) ∨ confs f < feeConfs) ∧
  ((check_fee regFee feeConfs regAddr f c).1 = TryAgain →
     (check_fee regFee feeConfs regAddr f c).2 = []).
Proof. fee_cases f c. Qed.

(** X19: the fee check answers at most once; the result is sent only after
    [PayAccount], [Sign] and the encoding of the result all returned nil,
    and then no error is sent. *)
Theorem check_fee_one_response (regFee feeConfs : Z) (regAddr : string) (f : fee) (c : calls) :
  (length (filter is_response (check_fee regFee feeConfs regAddr f c).2) ≤ 1)%nat ∧
  (SendResult ∈ (check_fee regFee feeConfs regAddr f c).2 ↔
     PayAccount ∈ (check_fee regFee feeConfs regAddr f c).2 ∧
     payErr c = None ∧ signErr c = None ∧ resultRespErr c = None) ∧
  (SendResult ∈ (check_fee regFee feeConfs regAddr f c).2 →
     (check_fee regFee feeConfs regAddr f c).2 = [PayAccount; SendResult]).
Proof. fee_cases f c; vm_compute; lia. Qed.
End fee_check.
